(** * Hamiltonian fitters of qiskit-ignis: [ZZFitter] and
      [CrossResonanceHamiltonianFitter]

    A shallow embedding of
    [qiskit/ignis/characterization/hamiltonian/fitters.py].

    Conventions of the embedding.
    - Python [int] is [Z].  Python [float] is modelled by the rational it
      denotes ([Q]); the rounding of float operations is not modelled, so an
      arithmetic expression of the source is the same expression over [Q].
    - A [dict] iterated with [.items()] is the list of its items in
      iteration order; a [dict] used for lookup and assignment is a [gmap].
    - A statement that can raise returns [Py A = exn + A]; the first
      exception raised aborts the enclosing loops, as in Python. *)

From Stdlib Require Import ZArith QArith Lia Ascii String.
From stdpp Require Import base option list gmap strings pretty.

Local Open Scope Z_scope.

(** ** Python exceptions and the error monad *)

Inductive exn : Type :=
  | IndexError
  | KeyError (key : string)
  | ZeroDivisionError
  | ValueError
  | QiskitError (msg : string)
  | OtherError (cls : string).

Definition Py (A : Type) : Type := (exn + A)%type.

Definition raise {A} (e : exn) : Py A := inl e.
Definition ret {A} (a : A) : Py A := inr a.

Definition bind {A B} (c : Py A) (k : A → Py B) : Py B :=
  match c with
  | inl e => inl e
  | inr a => k a
  end.

Notation "'let*' x ':=' c 'in' k" := (bind c (fun x => k))
  (at level 10, x pattern, c at level 100, k at level 200).

(** [for x in xs: acc = body(acc, x)], where the body may raise. *)
Fixpoint for_each {A S} (body : S → A → Py S) (xs : list A) (acc : S) : Py S :=
  match xs with
  | [] => ret acc
  | x :: rest => let* acc' := body acc x in for_each body rest acc'
  end.

(** [[f(x) for x in xs]], where [f] may raise. *)
Fixpoint map_py {A B} (f : A → Py B) (xs : list A) : Py (list B) :=
  match xs with
  | [] => ret []
  | x :: rest => let* y := f x in let* ys := map_py f rest in ret (y :: ys)
  end.

(** [l[i]] for a non-negative index. *)
Definition list_item {A} (l : list A) (i : nat) : Py A :=
  match l !! i with
  | Some x => ret x
  | None => raise IndexError
  end.

(** [l[i]] for a Python integer index: a negative index counts from the end. *)
Definition py_index {A} (l : list A) (i : Z) : Py A :=
  if decide (0 ≤ i) then list_item l (Z.to_nat i)
  else if decide (- Z.of_nat (length l) ≤ i)
       then list_item l (Z.to_nat (Z.of_nat (length l) + i))
       else raise IndexError.

(** [d[k]] on a dict with string keys. *)
Definition dict_item {V} (d : gmap string V) (k : string) : Py V :=
  match d !! k with
  | Some v => ret v
  | None => raise (KeyError k)
  end.

(** ** Measurement outcome sets *)

(** The items of a counts dictionary: bitstring and occurrence count. *)
Abbreviation Counts := (list (string * Z)).

(** [s[::-1][i]]: character [i] of the reversed string. *)
Definition reversed_char (s : string) (i : nat) : option Ascii.ascii :=
  reverse (list_ascii_of_string s) !! i.

(** [sum(counts.values())] *)
Definition total_count (counts : Counts) : Z :=
  foldr (λ item acc, item.2 + acc) 0 counts.

(** The body of the loop "convert count into eigenvalue":
<<
    for bits, count in counts.items():
        if bits[::-1][qind] == '1':
            expv -= count
        else:
            expv += count
>> *)
Definition eigen_step (qind : nat) (expv : Z) (item : string * Z) : Py Z :=
  match reversed_char item.1 qind with
  | None => raise IndexError
  | Some c => if Ascii.eqb c "1"%char then ret (expv - item.2) else ret (expv + item.2)
  end.

(** Python's true division of two integers. *)
Definition true_div (a b : Z) : Py Q :=
  if decide (b = 0) then raise ZeroDivisionError
  else ret (inject_Z a / inject_Z b)%Q.

(** Lines 179-186 of [_calc_data]: the expectation value of one counts
    dictionary for the target qubit [qind]. *)
Definition calc_expv (qind : nat) (counts : Counts) : Py Q :=
  let* expv := for_each (eigen_step qind) counts 0 in
  true_div expv (total_count counts).

(** ** Backend results *)

(** A backend result object, as far as the fitter uses it: its
    [get_counts(name)] either returns the counts of the named experiment
    or raises. *)
Record Result : Type := { get_counts : string → Py Counts }.

(** Modelled from the spec: the class [Result] of the measurement backend is
    not part of this file's sources.  Its lookup is keyed by an experiment
    name and returns a measurement outcome set or "not found", which the
    backend signals with a [QiskitError]. *)
Definition result_of_dict (d : gmap string Counts) : Result :=
  {| get_counts name :=
       match d !! name with
       | Some counts => ret counts
       | None => raise (QiskitError ("no data for experiment " +:+ name))
       end |}.

(** The exceptions named by [except (QiskitError, KeyError)]. *)
Definition caught (e : exn) : bool :=
  match e with
  | QiskitError _ | KeyError _ => true
  | _ => false
  end.

(** The body of the loop over the backend results:
<<
    try:
        counts = result.get_counts(expname)
    except (QiskitError, KeyError):
        pass
>> *)
Definition lookup_step (expname : string) (counts : Counts) (result : Result)
  : Py Counts :=
  match get_counts result expname with
  | inr found => ret found
  | inl e => if caught e then ret counts else raise e
  end.

(** Lines 173-178 of [_calc_data]: [counts = {}] followed by the loop. *)
Definition lookup_counts (results : list Result) (expname : string) : Py Counts :=
  for_each (lookup_step expname) results [].

(** Lines 173-186: the expectation value of one named experiment. *)
Definition experiment_expv (results : list Result) (expname : string) (qind : nat)
  : Py Q :=
  let* counts := lookup_counts results expname in
  calc_expv qind counts.

(** ** The numpy operations used by the fitter *)

(** [a.T] of a two-dimensional array with [ncols] columns. *)
Fixpoint np_transpose {A} (ncols : nat) (rows : list (list A)) : list (list A) :=
  match rows with
  | [] => replicate ncols []
  | row :: rest => zip_with cons row (np_transpose ncols rest)
  end.

(** [a.ravel()] of a two-dimensional array: row-major order. *)
Definition np_ravel {A} (rows : list (list A)) : list A := concat rows.

(** [a.T] of a three-dimensional array of shape [(d0, d1, d2)]: the axes are
    reversed, [a.T[k][j][i] = a[i][j][k]]. *)
Definition np_transpose3 {A} (d1 d2 : nat) (a : list (list (list A)))
  : list (list (list A)) :=
  np_transpose d1 <$> np_transpose d2 (np_transpose d2 <$> a).

(** [a.ravel()] of a three-dimensional array. *)
Definition np_ravel3 {A} (a : list (list (list A))) : list A :=
  concat (concat a).

(** [np.split(a, 3)] for an array whose length is a multiple of three. *)
Definition np_split3 {A} (a : list A) : list A * list A * list A :=
  let n := (length a / 3)%nat in
  (take n a, take n (drop n a), drop (n + n) a).

(** ** The cross-resonance fitter *)

(** One slot of the reduced observable table: [{'mean': ..., 'std': ...}];
    [None] is Python's [None]. *)
Record YEntry : Type := { mean : option (list Q); std : option (list Q) }.

Record Fitter : Type := {
  _backend_result_list : list Result;
  _circuit_names : list string;
  _series : list string;
  measured_qubits : list Z;
  _ydata : gmap string (list YEntry);
  _params : gmap string (list (list Q));
  _hamiltonian : gmap Z (gmap string Q)
}.

Definition set_ydata (f : Fitter) (ydata : gmap string (list YEntry)) : Fitter :=
  {| _backend_result_list := _backend_result_list f;
     _circuit_names := _circuit_names f;
     _series := _series f;
     measured_qubits := measured_qubits f;
     _ydata := ydata;
     _params := _params f;
     _hamiltonian := _hamiltonian f |}.

Definition set_hamiltonian (f : Fitter) (h : gmap Z (gmap string Q)) : Fitter :=
  {| _backend_result_list := _backend_result_list f;
     _circuit_names := _circuit_names f;
     _series := _series f;
     measured_qubits := measured_qubits f;
     _ydata := _ydata f;
     _params := _params f;
     _hamiltonian := h |}.

(** [__init__]: one circuit name ['cr_ham_tomo_sched_%d' % cind] per time
    point, and the two series. *)
Definition cr_circuit_names {T} (xdata : list T) : list string :=
  (λ cind : nat, "cr_ham_tomo_sched_" +:+ pretty cind) <$> seq 0 (length xdata).

Definition cr_series : list string := ["0"; "1"].

Definition meas_basis : list string := ["x"; "y"; "z"].

(** ['%s_%s_%s' % (circname, axis, serieslbl)] *)
Definition expname (circname axis serieslbl : string) : string :=
  circname +:+ "_" +:+ axis +:+ "_" +:+ serieslbl.

(** The Bloch vector of one circuit: the loop over [meas_basis]. *)
Definition calc_bloch_vec (f : Fitter) (serieslbl : string) (qind : nat)
    (circname : string) : Py (list Q) :=
  map_py (λ axis, experiment_expv (_backend_result_list f)
                    (expname circname axis serieslbl) qind) meas_basis.

(** The table entry of one qubit: the loop over [_circuit_names] and the
    flattening [np.array(bloch_vecs).T.ravel()].  The ['std'] slot keeps the
    [None] it was created with. *)
Definition calc_qubit (f : Fitter) (serieslbl : string) (qind : nat) : Py YEntry :=
  let* bloch_vecs := map_py (calc_bloch_vec f serieslbl qind) (_circuit_names f) in
  ret {| mean := Some (np_ravel (np_transpose 3 bloch_vecs)); std := None |}.

(** One iteration of [for serieslbl in self._series]. *)
Definition calc_series (f : Fitter) (ydata : gmap string (list YEntry))
    (serieslbl : string) : Py (gmap string (list YEntry)) :=
  let* entries := map_py (calc_qubit f serieslbl)
                    (seq 0 (length (measured_qubits f))) in
  ret (<[serieslbl := entries]> ydata).

(** [CrossResonanceHamiltonianFitter._calc_data]: [self._ydata = {}] and the
    loop over the series.  A run that raises is [inl]; the partially filled
    table it leaves behind is not modelled. *)
Definition _calc_data (f : Fitter) : Py Fitter :=
  let* ydata := for_each (calc_series f) (_series f) ∅ in
  ret (set_ydata f ydata).

(** *** The Bloch-equation model function *)

Definition Vec3 : Type := (Q * Q * Q)%type.

(** A 3x3 matrix, as its three rows. *)
Definition Mat3 : Type := (Vec3 * Vec3 * Vec3)%type.

(** [np.matrix([0, 0, 1]).T]: the initial Bloch vector of |0>. *)
Definition vec_r_t0 : Vec3 := (0, 0, 1)%Q.

(** The rotation generator. *)
Definition mat_a (omega_x omega_y delta : Q) : Mat3 :=
  ((0, delta, omega_y),
   (- delta, 0, - omega_x),
   (- omega_y, omega_x, 0))%Q.

Definition vec_scale (v : Vec3) (t : Q) : Vec3 :=
  let '(a, b, c) := v in (a * t, b * t, c * t)%Q.

(** [mat * t] for a scalar [t]. *)
Definition mat_scale (m : Mat3) (t : Q) : Mat3 :=
  let '(r0, r1, r2) := m in (vec_scale r0 t, vec_scale r1 t, vec_scale r2 t).

Definition dot (r v : Vec3) : Q :=
  let '(a, b, c) := r in
  let '(x, y, z) := v in
  (a * x + b * y + c * z)%Q.

(** The matrix product of a 3x3 matrix and a 3x1 column. *)
Definition mat_vec (m : Mat3) (v : Vec3) : Vec3 :=
  let '(r0, r1, r2) := m in (dot r0 v, dot r1 v, dot r2 v).

(** A 3x1 [np.matrix] as the nested list [np.array] sees. *)
Definition column (v : Vec3) : list (list Q) :=
  let '(x, y, z) := v in [[x]; [y]; [z]].

Section BlochModel.
(** [scipy.linalg.expm]: the matrix exponential is the library's; the
    model function is embedded over any implementation of it. *)
Variable expm : Mat3 → Mat3.

(** [la.expm(mat_a * t) * vec_r_t0] *)
Definition bloch_vec (omega_x omega_y delta t : Q) : Vec3 :=
  mat_vec (expm (mat_scale (mat_a omega_x omega_y delta) t)) vec_r_t0.

(** [CrossResonanceHamiltonianFitter._bloch_equation_fit_fun]: [vec_ts] is
    a list of T matrices of shape 3x1, so [np.array(vec_ts)] has shape
    (T, 3, 1). *)
Definition _bloch_equation_fit_fun (x : list Q) (omega_x omega_y delta : Q)
  : list Q :=
  let vec_ts := (λ t, column (bloch_vec omega_x omega_y delta t)) <$> x in
  np_ravel3 (np_transpose3 3 1 vec_ts).
End BlochModel.

(** *** The derived Hamiltonian *)

(** [l.index(x)]: the first position of [x]. *)
Fixpoint list_index (x : Z) (l : list Z) : Py nat :=
  match l with
  | [] => raise ValueError
  | y :: rest => if decide (y = x) then ret 0%nat
                 else let* i := list_index x rest in ret (S i)
  end.

(** [self._hamiltonian[qid][label] = value]: the right-hand side is
    evaluated first, then the inner dictionary is looked up and assigned
    in place. *)
Definition set_term (h : gmap Z (gmap string Q)) (qid : Z) (label : string)
    (value : Py Q) : Py (gmap Z (gmap string Q)) :=
  let* v := value in
  match h !! qid with
  | Some terms => ret (<[qid := <[label := v]> terms]> h)
  | None => raise (KeyError (pretty qid))
  end.

(** [(p0[i] + p1[i]) / 2] and [(p0[i] - p1[i]) / 2] *)
Definition half_sum (p0 p1 : list Q) (i : nat) : Py Q :=
  let* a := list_item p0 i in
  let* b := list_item p1 i in
  ret ((a + b) / 2)%Q.

Definition half_diff (p0 p1 : list Q) (i : nat) : Py Q :=
  let* a := list_item p0 i in
  let* b := list_item p1 i in
  ret ((a - b) / 2)%Q.

(** [self.params[series][self.measured_qubits.index(qid)]] *)
Definition fit_params (f : Fitter) (series : string) (qid : Z) : Py (list Q) :=
  let* params := dict_item (_params f) series in
  let* idx := list_index qid (measured_qubits f) in
  list_item params idx.

(** The body of [for qid in self.measured_qubits] in [hamiltonian]. *)
Definition hamiltonian_step (f : Fitter) (h : gmap Z (gmap string Q)) (qid : Z)
  : Py (gmap Z (gmap string Q)) :=
  let* fit_params0 := fit_params f "0" qid in
  let* fit_params1 := fit_params f "1" qid in
  let* h := set_term h qid "XI" (half_sum fit_params0 fit_params1 0) in
  let* h := set_term h qid "YI" (half_sum fit_params0 fit_params1 1) in
  let* h := set_term h qid "ZI" (half_sum fit_params0 fit_params1 2) in
  let* h := set_term h qid "XZ" (half_diff fit_params0 fit_params1 0) in
  let* h := set_term h qid "YZ" (half_diff fit_params0 fit_params1 1) in
  set_term h qid "ZZ" (half_diff fit_params0 fit_params1 2).

(** The property [CrossResonanceHamiltonianFitter.hamiltonian].  It returns
    the object [self._hamiltonian] itself, which it has updated in place:
    the value returned is the [_hamiltonian] field of the state returned,
    and every reference handed out earlier reads that same field. *)
Definition hamiltonian (f : Fitter) : Py (gmap Z (gmap string Q) * Fitter) :=
  let* h := for_each (hamiltonian_step f) (measured_qubits f) (_hamiltonian f) in
  ret (h, set_hamiltonian f h).

(** ** The ZZ fitter *)

Module ZZ.

(** What numpy returns: a 0-dimensional or a 1-dimensional array. *)
Inductive ndarray : Type :=
  | Scalar (x : Q)
  | Array1 (xs : list Q).

Record ZZFitter : Type := {
  _qubits : list Z;
  _params : gmap string (list (list Q))
}.

(** Modelled from the spec: [_get_param] belongs to the base fitter, which
    is not part of this file's sources.  It is the post-fit accessor for
    fit parameters, indexed by series label and qubit index, or by the
    "all qubits" sentinel -1, for which it lists the parameter of every
    qubit of the qubit list. *)
Definition _get_param (f : ZZFitter) (param_ind : nat) (qind : Z)
    (series : string) : Py ndarray :=
  let* params := dict_item (_params f) series in
  if decide (qind = -1) then
    let* values := map_py (λ q, let* p := list_item params q in
                                list_item p param_ind)
                     (seq 0 (length (_qubits f))) in
    ret (Array1 values)
  else
    let* p := py_index params qind in
    let* v := list_item p param_ind in
    ret (Scalar v).

(** [a - b] on arrays, with numpy's broadcasting of a scalar or of an
    array of length one. *)
Definition np_sub (a b : ndarray) : Py ndarray :=
  match a, b with
  | Scalar x, Scalar y => ret (Scalar (x - y)%Q)
  | Scalar x, Array1 ys => ret (Array1 ((λ y, x - y)%Q <$> ys))
  | Array1 xs, Scalar y => ret (Array1 ((λ x, x - y)%Q <$> xs))
  | Array1 xs, Array1 ys =>
      if decide (length xs = length ys)
      then ret (Array1 (zip_with Qminus xs ys))
      else match xs, ys with
           | [x], _ => ret (Array1 ((λ y, x - y)%Q <$> ys))
           | _, [y] => ret (Array1 ((λ x, x - y)%Q <$> xs))
           | _, _ => raise ValueError
           end
  end.

(** [ZZFitter.ZZ_rate] *)
Definition ZZ_rate (f : ZZFitter) (qind : Z) : Py ndarray :=
  let* freq0 := _get_param f 1 qind "0" in
  let* freq1 := _get_param f 1 qind "1" in
  np_sub freq1 freq0.

End ZZ.

(** ** Vocabulary of the properties *)



(** The contribution of one item to the signed sum. *)
Definition signed_count (qind : nat) (item : string * Z) : Z :=
  if bool_decide (reversed_char item.1 qind = Some "1"%char)
  then - item.2 else item.2.

Definition signed_sum (qind : nat) (counts : Counts) : Z :=
  foldr (λ item acc, signed_count qind item + acc) 0 counts.

(** A result answers for an experiment name with counts, or with one of the
    two exceptions the lookup loop catches. *)
Definition contains (name : string) (r : Result) : Prop :=
  ∃ counts, get_counts r name = inr counts.

Definition not_found (name : string) (r : Result) : Prop :=
  ∃ e, get_counts r name = inl e ∧ caught e = true.

Definition answers (name : string) (r : Result) : Prop :=
  contains name r ∨ not_found name r.

(** The counts of the first result that contains the experiment. *)
Fixpoint first_match (results : list Result) (name : string) : option Counts :=
  match results with
  | [] => None
  | r :: rest =>
      match get_counts r name with
      | inr counts => Some counts
      | inl _ => first_match rest name
      end
  end.

(** The three per-basis sequences of a list of Bloch vectors, one after the
    other: all x values, then all y values, then all z values. *)
Definition basis_major (vs : list Vec3) : list Q :=
  ((λ v : Vec3, v.1.1) <$> vs) ++ ((λ v : Vec3, v.1.2) <$> vs)
    ++ ((λ v : Vec3, v.2) <$> vs).

(** A Bloch vector as the list [[x, y, z]] the data reduction collects. *)
Definition vec_list (v : Vec3) : list Q := [v.1.1; v.1.2; v.2].

(** The six coefficients of one qubit are in the mapping [terms]. *)
Record has_coefficients (terms : gmap string Q)
    (wx0 wy0 d0 wx1 wy1 d1 : Q) : Prop := {
  coeff_XI : terms !! "XI" = Some ((wx0 + wx1) / 2)%Q;
  coeff_YI : terms !! "YI" = Some ((wy0 + wy1) / 2)%Q;
  coeff_ZI : terms !! "ZI" = Some ((d0 + d1) / 2)%Q;
  coeff_XZ : terms !! "XZ" = Some ((wx0 - wx1) / 2)%Q;
  coeff_YZ : terms !! "YZ" = Some ((wy0 - wy1) / 2)%Q;
  coeff_ZZ : terms !! "ZZ" = Some ((d0 - d1) / 2)%Q
}.

(** The fitted frequency (parameter 1) of qubit [q] in the parameter table
    of one series. *)
Definition frequency (params : list (list Q)) (q : nat) : option Q :=
  params !! q ≫= (λ p, p !! 1%nat).

(** The transpose and the negation of a 3x3 matrix. *)
Definition mat_T (m : Mat3) : Mat3 :=
  let '((a, b, c), (d, e, f), (g, h, i)) := m in
  ((a, d, g), (b, e, h), (c, f, i)).

Definition mat_opp (m : Mat3) : Mat3 :=
  let '((a, b, c), (d, e, f), (g, h, i)) := m in
  ((- a, - b, - c), (- d, - e, - f), (- g, - h, - i))%Q.

(** [v] holds the expectation values of the x, y and z experiments of the
    circuit [circname] for one series and one qubit. *)
Definition is_bloch_vec_of (f : Fitter) (serieslbl : string) (qind : nat)
    (circname : string) (v : Vec3) : Prop :=
  experiment_expv (_backend_result_list f) (expname circname "x" serieslbl) qind
  = inr v.1.1
  ∧ experiment_expv (_backend_result_list f) (expname circname "y" serieslbl) qind
    = inr v.1.2
  ∧ experiment_expv (_backend_result_list f) (expname circname "z" serieslbl) qind
    = inr v.2.

(** A row of the reduced observable table as [_calc_data] leaves it: one
    entry per measured qubit, each with a mean of three values per circuit
    and with [None] as standard error. *)
Definition table_row_ok (f : Fitter) (entries : list YEntry) : Prop :=
  length entries = length (measured_qubits f)
  ∧ Forall (λ e, std e = None
                 ∧ ∃ m, mean e = Some m
                        ∧ length m = (3 * length (_circuit_names f))%nat)
      entries.

(** The entry of [qid] in a Hamiltonian mapping holds the six coefficients. *)
Definition holds_terms (qid : Z) (wx0 wy0 d0 wx1 wy1 d1 : Q)
    (h : gmap Z (gmap string Q)) : Prop :=
  ∃ terms, h !! qid = Some terms
           ∧ has_coefficients terms wx0 wy0 d0 wx1 wy1 d1.

(** ** Concrete fitters used in the examples *)

Definition ex_counts : Counts := [("00", 3); ("01", 1)].
Definition ex_counts_later : Counts := [("00", 1); ("10", 1)].

(** Two backend results that both hold the experiment
    [cr_ham_tomo_sched_0_x_0], with different counts. *)
Definition ex_result_first : Result :=
  result_of_dict {[ "cr_ham_tomo_sched_0_x_0" := ex_counts ]}.
Definition ex_result_second : Result :=
  result_of_dict {[ "cr_ham_tomo_sched_0_x_0" := ex_counts_later ]}.

(** A backend result that holds no experiment at all. *)
Definition ex_result_none : Result := result_of_dict ∅.

(** A backend result with all six experiments of one time point. *)
Definition ex_result_full : Result :=
  result_of_dict
    (list_to_map
       [("cr_ham_tomo_sched_0_x_0", [("00", 3); ("01", 1)]);
        ("cr_ham_tomo_sched_0_y_0", [("00", 2); ("01", 2)]);
        ("cr_ham_tomo_sched_0_z_0", [("00", 4)]);
        ("cr_ham_tomo_sched_0_x_1", [("10", 1); ("11", 3)]);
        ("cr_ham_tomo_sched_0_y_1", [("10", 2); ("11", 2)]);
        ("cr_ham_tomo_sched_0_z_1", [("11", 4)])]).

(** A backend result whose first experiment was run with no shots
    recorded. *)
Definition ex_result_zero : Result :=
  result_of_dict {[ "cr_ham_tomo_sched_0_x_0" := [("00", 0)] ]}.

Definition ex_fitter_with (results : list Result) : Fitter :=
  {| _backend_result_list := results;
     _circuit_names := cr_circuit_names [1%Q];
     _series := cr_series;
     measured_qubits := [0];
     _ydata := ∅;
     _params := {[ "0" := [[3; 1; 5]%Q]; "1" := [[1; 1; 2]%Q] ]};
     _hamiltonian := {[ 0 := ∅ ]} |}.

Definition ex_fitter : Fitter := ex_fitter_with [ex_result_full].

Definition ex_zz_fitter : ZZ.ZZFitter :=
  {| ZZ._qubits := [0; 2];
     ZZ._params := {[ "0" := [[1; 2; 3]; [4; 5; 6]]%Q;
                      "1" := [[1; 7; 3]; [4; 9; 6]]%Q ]} |}.

(** ** Further operations of the fitters *)

(** [ZZFitter.__init__]: one circuit name ['zzcircuit_%d_' % cind] per time
    point. *)
Definition zz_circuit_names {T} (xdata : list T) : list string :=
  (λ cind : nat, "zzcircuit_" +:+ pretty cind +:+ "_") <$> seq 0 (length xdata).

(** [np.split(a, 3)], as the plotting methods call it on a mean vector and
    on the output of the model function: it raises [ValueError] unless the
    length is a multiple of three. *)
Definition np_split {A} (a : list A) : Py (list A * list A * list A) :=
  if decide (length a `mod` 3 = 0)%nat then ret (np_split3 a)
  else raise ValueError.

(** The labels assigned by [hamiltonian]. *)
Definition term_labels : list string := ["XI"; "YI"; "ZI"; "XZ"; "YZ"; "ZZ"].

(** The mapping [terms] holds under [label] the value of the expression
    [value]. *)
Definition term_is (terms : gmap string Q) (label : string) (value : Py Q) : Prop :=
  ∃ v, value = inr v ∧ terms !! label = Some v.

(** The entry of [qid] in [h] holds the six expressions of [hamiltonian],
    evaluated on the fitted parameters of [f]. *)
Definition holds_values (f : Fitter) (qid : Z) (h : gmap Z (gmap string Q)) : Prop :=
  ∃ p0 p1 terms,
    fit_params f "0" qid = inr p0 ∧ fit_params f "1" qid = inr p1
    ∧ h !! qid = Some terms
    ∧ term_is terms "XI" (half_sum p0 p1 0)
    ∧ term_is terms "YI" (half_sum p0 p1 1)
    ∧ term_is terms "ZI" (half_sum p0 p1 2)
    ∧ term_is terms "XZ" (half_diff p0 p1 0)
    ∧ term_is terms "YZ" (half_diff p0 p1 1)
    ∧ term_is terms "ZZ" (half_diff p0 p1 2).

(** Every measured qubit has an entry in [_hamiltonian] and at least three
    fitted parameters in both series. *)
Definition hamiltonian_ready (f : Fitter) : Prop :=
  ∀ qid, qid ∈ measured_qubits f →
    is_Some (_hamiltonian f !! qid)
    ∧ ∃ p0 p1, fit_params f "0" qid = inr p0 ∧ fit_params f "1" qid = inr p1
               ∧ (3 ≤ length p0)%nat ∧ (3 ≤ length p1)%nat.

(** The experiments that one pass of [_calc_data] looks up. *)
Definition is_experiment_of (f : Fitter) (name : string) (qind : nat) : Prop :=
  ∃ serieslbl circname axis,
    serieslbl ∈ _series f ∧ (qind < length (measured_qubits f))%nat
    ∧ circname ∈ _circuit_names f ∧ axis ∈ meas_basis
    ∧ name = expname circname axis serieslbl.


(** A backend result whose lookup fails with an exception the loop does not
    catch. *)
Definition ex_result_broken : Result :=
  {| get_counts _ := raise (OtherError "ConnectionError") |}.

(** A fitter that lists qubit 7 twice, with different parameters at the two
    positions. *)
Definition ex_fitter_twice : Fitter :=
  {| _backend_result_list := [];
     _circuit_names := [];
     _series := cr_series;
     measured_qubits := [7; 7];
     _ydata := ∅;
     _params := {[ "0" := [[3; 1; 5]; [8; 8; 8]]%Q;
                   "1" := [[1; 1; 2]; [9; 9; 9]]%Q ]};
     _hamiltonian := {[ 7 := {[ "IX" := 6%Q ]}; 4 := ∅ ]} |}.

(** A fitter whose fit has not produced any parameters. *)
Definition ex_fitter_unfitted : Fitter :=
  {| _backend_result_list := [];
     _circuit_names := [];
     _series := cr_series;
     measured_qubits := [0];
     _ydata := ∅;
     _params := ∅;
     _hamiltonian := {[ 0 := ∅ ]} |}.

(** ** The model function, entry by entry *)

(** The matrix [A * t], written out: every entry of the generator times
    [t]. *)
Definition generator_at (omega_x omega_y delta t : Q) : Mat3 :=
  ((0 * t, delta * t, omega_y * t),
   (- delta * t, 0 * t, - omega_x * t),
   (- omega_y * t, omega_x * t, 0 * t))%Q.

(** The third column of a matrix: its product with the column (0, 0, 1). *)
Definition third_column (m : Mat3) : Vec3 :=
  let '((_, _, c), (_, _, f), (_, _, i)) := m in (c, f, i).

(** Two vectors are equal as vectors of rational numbers. *)
Definition vec_eq (u v : Vec3) : Prop :=
  (u.1.1 == v.1.1 ∧ u.1.2 == v.1.2 ∧ u.2 == v.2)%Q.

(** An implementation of [expm] to run the model function with: the
    first-order truncation I + M of the exponential series. *)
Definition ex_expm (m : Mat3) : Mat3 :=
  let '((a, b, c), (d, e, f), (g, h, i)) := m in
  ((1 + a, b, c), (d, 1 + e, f), (g, h, 1 + i))%Q.

(** A backend result with the experiments of series '0' for two time
    points. *)
Definition ex_result_two : Result :=
  result_of_dict
    (list_to_map
       [("cr_ham_tomo_sched_0_x_0", [("0", 3); ("1", 1)]);
        ("cr_ham_tomo_sched_0_y_0", [("0", 2); ("1", 2)]);
        ("cr_ham_tomo_sched_0_z_0", [("0", 4)]);
        ("cr_ham_tomo_sched_1_x_0", [("0", 1); ("1", 3)]);
        ("cr_ham_tomo_sched_1_y_0", [("0", 4)]);
        ("cr_ham_tomo_sched_1_z_0", [("1", 4)])]).

Definition ex_fitter_two : Fitter :=
  {| _backend_result_list := [ex_result_two];
     _circuit_names := cr_circuit_names [1%Q; 2%Q];
     _series := ["0"];
     measured_qubits := [0];
     _ydata := ∅;
     _params := ∅;
     _hamiltonian := ∅ |}.

(** * Properties *)

(** ** The error monad and the loops *)

Lemma bind_inr {A B} (c : Py A) (k : A → Py B) (b : B) :
  bind c k = inr b ↔ ∃ a, c = inr a ∧ k a = inr b.
Proof.
  destruct c as [e|a]; simpl; split.
  - discriminate.
  - intros (a & Ha & _). discriminate.
  - eauto.
  - intros (a' & [= <-] & Hk). exact Hk.
Qed.

Lemma map_py_inr {A B} (f : A → Py B) (xs : list A) (ys : list B) :
  map_py f xs = inr ys ↔ Forall2 (λ x y, f x = inr y) xs ys.
Proof.
  revert ys. induction xs as [|x xs IH]; intros ys; simpl.
  - split.
    + intros [= <-]. constructor.
    + intros Hys. inversion Hys. reflexivity.
  - rewrite bind_inr. split.
    + intros (y & Hy & Hrest). apply bind_inr in Hrest as (ys' & Hys' & [= <-]).
      constructor; [exact Hy | by apply IH].
    + intros Hys. inversion Hys as [|? y ? ys' Hy Hys']; subst.
      exists y. split; [exact Hy|]. apply bind_inr. exists ys'.
      split; [by apply IH | reflexivity].
Qed.

Lemma map_py_length {A B} (f : A → Py B) (xs : list A) (ys : list B) :
  map_py f xs = inr ys → length ys = length xs.
Proof. intros H%map_py_inr. symmetry. by eapply Forall2_length. Qed.

Lemma for_each_app {A S} (body : S → A → Py S) (xs ys : list A) (acc : S) :
  for_each body (xs ++ ys) acc = bind (for_each body xs acc) (for_each body ys).
Proof.
  revert acc. induction xs as [|x xs IH]; intros acc; simpl; [reflexivity|].
  destruct (body acc x) as [e|acc']; simpl; [reflexivity | apply IH].
Qed.

(** A property kept by every iteration is kept by the loop. *)
Lemma for_each_invariant {A S} (P : S → Prop) (body : S → A → Py S)
    (xs : list A) (acc acc' : S) :
  (∀ s x s', x ∈ xs → P s → body s x = inr s' → P s') →
  P acc → for_each body xs acc = inr acc' → P acc'.
Proof.
  revert acc. induction xs as [|x xs IH]; intros acc Hstep Hacc; simpl.
  - intros [= <-]. exact Hacc.
  - intros (s & Hs & Hrest)%bind_inr.
    eapply IH; [|..|exact Hrest].
    + intros s0 x0 s0' Hx0. apply Hstep. by right.
    + eapply Hstep; [by left | exact Hacc | exact Hs].
Qed.

(** ** Strings and the target bit *)

Lemma length_list_ascii_of_string (s : string) :
  length (list_ascii_of_string s) = String.length s.
Proof. induction s as [|c s IH]; simpl; [reflexivity | by rewrite IH]. Qed.

Lemma reversed_char_is_Some (s : string) (i : nat) :
  is_Some (reversed_char s i) ↔ (i < String.length s)%nat.
Proof.
  unfold reversed_char.
  by rewrite lookup_lt_is_Some, length_reverse, length_list_ascii_of_string.
Qed.

Lemma reversed_char_None (s : string) (i : nat) :
  reversed_char s i = None ↔ (String.length s ≤ i)%nat.
Proof.
  unfold reversed_char.
  by rewrite lookup_ge_None, length_reverse, length_list_ascii_of_string.
Qed.


(** ** The signed sum computed by the eigenvalue loop *)

Lemma eigen_step_inr (qind : nat) (expv : Z) (item : string * Z) :
  is_Some (reversed_char item.1 qind) →
  eigen_step qind expv item = inr (expv + signed_count qind item).
Proof.
  intros [c Hc]. unfold eigen_step, signed_count. rewrite Hc.
  destruct (Ascii.eqb_spec c "1"%char) as [-> | Hne].
  - rewrite bool_decide_eq_true_2 by reflexivity. reflexivity.
  - rewrite bool_decide_eq_false_2 by congruence. reflexivity.
Qed.

Lemma eigen_step_raises (qind : nat) (expv : Z) (item : string * Z) (e : exn) :
  eigen_step qind expv item = inl e →
  e = IndexError ∧ (String.length item.1 ≤ qind)%nat.
Proof.
  unfold eigen_step.
  destruct (reversed_char item.1 qind) as [c|] eqn:Hc.
  - destruct (Ascii.eqb c "1"%char); discriminate.
  - intros [= <-]. split; [reflexivity | by apply reversed_char_None].
Qed.

Lemma eigen_loop_inr (qind : nat) (counts : Counts) (expv : Z) :
  Forall (λ item, (qind < String.length item.1)%nat) counts →
  for_each (eigen_step qind) counts expv = inr (expv + signed_sum qind counts).
Proof.
  revert expv. induction counts as [|item counts IH]; intros expv Hall; simpl.
  - unfold ret. f_equal. lia.
  - inversion Hall as [|? ? Hitem Hrest]; subst.
    rewrite eigen_step_inr by (by apply reversed_char_is_Some). simpl.
    rewrite IH by exact Hrest. f_equal. lia.
Qed.

Lemma eigen_loop_raises (qind : nat) (counts : Counts) (expv : Z) :
  Exists (λ item, (String.length item.1 ≤ qind)%nat) counts →
  for_each (eigen_step qind) counts expv = inl IndexError.
Proof.
  revert expv. induction counts as [|item counts IH]; intros expv Hex; simpl.
  - inversion Hex.
  - destruct (eigen_step qind expv item) as [e|expv'] eqn:Hstep; simpl.
    + apply eigen_step_raises in Hstep as [-> _]. reflexivity.
    + inversion Hex as [? ? Hshort|? ? Hrest]; subst.
      * apply reversed_char_None in Hshort. unfold eigen_step in Hstep.
        rewrite Hshort in Hstep. discriminate.
      * by apply IH.
Qed.












(** ** The expectation value of one counts dictionary *)





(** C10.  The target bit is character [qind] of the reversed key.  When
    every key is longer than [qind] the lookup is in bounds for every key
    and the reduction does not raise [IndexError]; when some key has length
    at most [qind] the reduction raises [IndexError]. *)
Theorem target_bit_index_bounds (qind : nat) (counts : Counts) :
  (Forall (λ item, (qind < String.length item.1)%nat) counts →
   Forall (λ item, is_Some (reversed_char item.1 qind)) counts
   ∧ calc_expv qind counts ≠ inl IndexError)
  ∧ (Exists (λ item, (String.length item.1 ≤ qind)%nat) counts →
     Exists (λ item, reversed_char item.1 qind = None) counts
     ∧ calc_expv qind counts = inl IndexError).
Proof.
  split.
  - intros Hlong. split.
    + eapply Forall_impl; [exact Hlong|]. intros item Hlen. simpl.
      by apply reversed_char_is_Some.
    + unfold calc_expv. rewrite eigen_loop_inr by exact Hlong. simpl.
      unfold true_div. case_decide; discriminate.
  - intros Hshort. split.
    + eapply Exists_impl; [exact Hshort|]. intros item Hlen. simpl.
      by apply reversed_char_None.
    + unfold calc_expv. by rewrite eigen_loop_raises.
Qed.

Lemma target_bit_index_bounds_witness :
  (Forall (λ item, is_Some (reversed_char item.1 1)) ex_counts
   ∧ calc_expv 1 ex_counts ≠ inl IndexError)
  ∧ (Exists (λ item, reversed_char item.1 1 = None) [("00", 3); ("1", 1)]
     ∧ calc_expv 1 [("00", 3); ("1", 1)] = inl IndexError).
Proof.
  split.
  - apply (target_bit_index_bounds 1 ex_counts).
    repeat (apply List.Forall_cons; [simpl; lia|]). apply List.Forall_nil.
  - apply (target_bit_index_bounds 1 [("00", 3); ("1", 1)]).
    apply List.Exists_cons_tl, List.Exists_cons_hd. simpl. lia.
Defined.




(** ** The lookup of an experiment across the backend results *)

Lemma lookup_loop_not_found (name : string) (results : list Result)
    (counts : Counts) :
  Forall (not_found name) results →
  for_each (lookup_step name) results counts = inr counts.
Proof.
  induction results as [|r results IH]; intros Hall; simpl; [reflexivity|].
  inversion Hall as [|? ? (e & He & Hcaught) Hrest]; subst.
  unfold lookup_step at 1. rewrite He, Hcaught. simpl. by apply IH.
Qed.

Lemma lookup_loop_answers (name : string) (results : list Result)
    (counts : Counts) :
  Forall (answers name) results →
  ∃ counts', for_each (lookup_step name) results counts = inr counts'.
Proof.
  revert counts.
  induction results as [|r results IH]; intros counts Hall; simpl.
  - by eexists.
  - inversion Hall as [|? ? Hr Hrest]; subst. unfold lookup_step at 1.
    destruct Hr as [[found Hfound] | (e & He & Hcaught)].
    + rewrite Hfound. simpl. by apply IH.
    + rewrite He, Hcaught. simpl. by apply IH.
Qed.

(** C3, as the code has it: the last match wins.  The counts used are those
    of the last backend result that contains the experiment; every match of
    an earlier result is overwritten. *)
Theorem lookup_counts_last_match (name : string) (before after : list Result)
    (r : Result) (counts : Counts) :
  Forall (answers name) before →
  get_counts r name = inr counts →
  Forall (not_found name) after →
  lookup_counts (before ++ r :: after) name = inr counts.
Proof.
  intros Hbefore Hr Hafter. unfold lookup_counts.
  rewrite for_each_app.
  destruct (lookup_loop_answers name before [] Hbefore) as [c ->].
  simpl. unfold lookup_step at 1. rewrite Hr. simpl.
  by apply lookup_loop_not_found.
Qed.

Lemma lookup_counts_last_match_witness :
  lookup_counts ([ex_result_first] ++ ex_result_second :: [ex_result_none])
    "cr_ham_tomo_sched_0_x_0" = inr ex_counts_later.
Proof.
  apply lookup_counts_last_match.
  - apply List.Forall_cons; [|apply List.Forall_nil].
    left. exists ex_counts. reflexivity.
  - reflexivity.
  - apply List.Forall_cons; [|apply List.Forall_nil].
    eexists. split; reflexivity.
Defined.

(** C3, as the claim has it, fails: with two backend results that both
    contain the experiment, the counts used are not those of the first. *)
Lemma first_match_overridden :
  contains "cr_ham_tomo_sched_0_x_0" ex_result_first
  ∧ contains "cr_ham_tomo_sched_0_x_0" ex_result_second
  ∧ first_match [ex_result_first; ex_result_second] "cr_ham_tomo_sched_0_x_0"
    = Some ex_counts
  ∧ lookup_counts [ex_result_first; ex_result_second] "cr_ham_tomo_sched_0_x_0"
    = inr ex_counts_later
  ∧ ex_counts_later ≠ ex_counts.
Proof.
  split; [by exists ex_counts|]. split; [by exists ex_counts_later|].
  repeat split; try (vm_compute; reflexivity). discriminate.
Qed.

(** C8, as the code has it: when no backend result contains the experiment,
    every lookup error is caught, the counts stay empty and the reduction
    raises [ZeroDivisionError]. *)
Theorem missing_experiment_raises_zero_division (results : list Result)
    (name : string) (qind : nat) :
  Forall (not_found name) results →
  lookup_counts results name = inr []
  ∧ experiment_expv results name qind = inl ZeroDivisionError.
Proof.
  intros Hnone.
  assert (lookup_counts results name = inr []) as Hlookup
    by (by apply lookup_loop_not_found).
  split; [exact Hlookup|].
  unfold experiment_expv. rewrite Hlookup. reflexivity.
Qed.

Lemma missing_experiment_raises_zero_division_witness :
  lookup_counts [ex_result_none; ex_result_none] "cr_ham_tomo_sched_0_x_0" = inr []
  ∧ experiment_expv [ex_result_none; ex_result_none] "cr_ham_tomo_sched_0_x_0" 0
    = inl ZeroDivisionError.
Proof.
  apply missing_experiment_raises_zero_division.
  repeat (apply List.Forall_cons; [eexists; split; reflexivity|]).
  apply List.Forall_nil.
Defined.

(** C8, as the claim has it, fails: the backend's lookup error for the
    missing experiment is caught by the loop, and the pass ends in a
    [ZeroDivisionError], which is not that error and names no experiment. *)
Lemma missing_experiment_masked :
  get_counts ex_result_none "cr_ham_tomo_sched_0_x_0"
  = inl (QiskitError "no data for experiment cr_ham_tomo_sched_0_x_0")
  ∧ lookup_counts [ex_result_none] "cr_ham_tomo_sched_0_x_0" = inr []
  ∧ experiment_expv [ex_result_none] "cr_ham_tomo_sched_0_x_0" 0
    = inl ZeroDivisionError
  ∧ _calc_data (ex_fitter_with [ex_result_none]) = inl ZeroDivisionError.
Proof. repeat split; vm_compute; reflexivity. Qed.

(** ** Flattening in basis-major order *)

Lemma np_transpose_vec_list (vs : list Vec3) :
  np_transpose 3 (vec_list <$> vs)
  = [(λ v : Vec3, v.1.1) <$> vs; (λ v : Vec3, v.1.2) <$> vs;
     (λ v : Vec3, v.2) <$> vs].
Proof.
  induction vs as [|v vs IH]; [reflexivity|].
  rewrite fmap_cons. cbn [np_transpose]. rewrite IH. reflexivity.
Qed.

Lemma np_ravel_basis_major (vs : list Vec3) :
  np_ravel (np_transpose 3 (vec_list <$> vs)) = basis_major vs.
Proof.
  rewrite np_transpose_vec_list. unfold np_ravel, basis_major. simpl.
  by rewrite app_nil_r.
Qed.

Lemma np_transpose_singletons {A B} (g : A → B) (xs : list A) :
  np_transpose 1 ((λ x, [g x]) <$> xs) = [g <$> xs].
Proof.
  induction xs as [|x xs IH]; [reflexivity|].
  rewrite fmap_cons. cbn [np_transpose]. rewrite IH. reflexivity.
Qed.

Lemma np_transpose_column (v : Vec3) : np_transpose 1 (column v) = [vec_list v].
Proof. by destruct v as [[a b] c]. Qed.

Lemma np_transpose3_columns (vs : list Vec3) :
  np_transpose3 3 1 (column <$> vs) = [np_transpose 3 (vec_list <$> vs)].
Proof.
  unfold np_transpose3. rewrite <- list_fmap_compose.
  rewrite (list_fmap_ext (np_transpose 1 ∘ column) (λ v, [vec_list v]) vs)
    by (intros ? v _; apply np_transpose_column).
  by rewrite np_transpose_singletons.
Qed.

Lemma np_transpose3_columns_fmap {A} (g : A → Vec3) (xs : list A) :
  np_transpose3 3 1 ((λ t, column (g t)) <$> xs)
  = [np_transpose 3 (vec_list <$> (g <$> xs))].
Proof. rewrite <- np_transpose3_columns. by rewrite <- list_fmap_compose. Qed.

Lemma length_basis_major (vs : list Vec3) :
  length (basis_major vs) = (3 * length vs)%nat.
Proof. unfold basis_major. rewrite !length_app, !length_fmap. lia. Qed.

(** [np.split(..., 3)] recovers the three per-basis sequences. *)
Lemma np_split3_basis_major (vs : list Vec3) :
  np_split3 (basis_major vs)
  = ((λ v : Vec3, v.1.1) <$> vs, (λ v : Vec3, v.1.2) <$> vs,
     (λ v : Vec3, v.2) <$> vs).
Proof.
  unfold np_split3. rewrite length_basis_major.
  replace ((3 * length vs) `div` 3)%nat with (length vs)
    by (symmetry; rewrite Nat.mul_comm; apply Nat.div_mul; lia).
  unfold basis_major.
  rewrite take_app_length' by (by rewrite length_fmap).
  rewrite drop_app_length' by (by rewrite length_fmap).
  rewrite take_app_length' by (by rewrite length_fmap).
  rewrite app_assoc, drop_app_length'
    by (rewrite length_app, !length_fmap; lia).
  reflexivity.
Qed.

Lemma calc_bloch_vec_inr (f : Fitter) (serieslbl : string) (qind : nat)
    (circname : string) (l : list Q) :
  calc_bloch_vec f serieslbl qind circname = inr l →
  ∃ v : Vec3, l = vec_list v ∧ is_bloch_vec_of f serieslbl qind circname v.
Proof.
  unfold calc_bloch_vec, meas_basis. intros Hl%map_py_inr.
  inversion Hl as [|? vx ? ? Hx Hl1]; subst.
  inversion Hl1 as [|? vy ? ? Hy Hl2]; subst.
  inversion Hl2 as [|? vz ? ? Hz Hl3]; subst.
  inversion Hl3; subst.
  exists (vx, vy, vz). split; [reflexivity|]. by repeat split.
Qed.

(** The table entry of one qubit: the mean is the basis-major flattening of
    the Bloch vectors of the circuits, in circuit order, and the standard
    error is [None]. *)
Lemma calc_qubit_inr (f : Fitter) (serieslbl : string) (qind : nat) (e : YEntry) :
  calc_qubit f serieslbl qind = inr e →
  ∃ vs : list Vec3,
    Forall2 (is_bloch_vec_of f serieslbl qind) (_circuit_names f) vs
    ∧ mean e = Some (basis_major vs) ∧ std e = None.
Proof.
  unfold calc_qubit. intros (bloch_vecs & Hvecs & [= <-])%bind_inr.
  apply map_py_inr in Hvecs.
  assert (∃ vs : list Vec3, bloch_vecs = vec_list <$> vs
            ∧ Forall2 (is_bloch_vec_of f serieslbl qind) (_circuit_names f) vs)
    as (vs & -> & Hvs).
  { induction Hvecs as [|c l cs ls Hl _ (vs & -> & Hvs)].
    - exists []. split; [reflexivity | constructor].
    - apply calc_bloch_vec_inr in Hl as (v & -> & Hv).
      exists (v :: vs). split; [reflexivity | by constructor]. }
  exists vs. split; [exact Hvs|]. split; [|reflexivity].
  cbn [mean]. by rewrite np_ravel_basis_major.
Qed.

(** ** The Bloch-equation model function *)

Lemma mat_vec_third_column (m : Mat3) :
  vec_eq (mat_vec m (0, 0, 1)%Q) (third_column m).
Proof.
  destruct m as [[[[a b] c] [[d e] f]] [[g h] i]].
  unfold vec_eq, mat_vec, dot, third_column. simpl. repeat split; ring.
Qed.

Lemma fmap_component_Qeq {A} (p : Vec3 → Q) (g g' : A → Vec3) (xs : list A) :
  (∀ t, (p (g t) == p (g' t))%Q) →
  Forall2 Qeq ((λ v, p v) <$> (g <$> xs)) ((λ v, p v) <$> (g' <$> xs)).
Proof.
  intros Heq. induction xs as [|t xs IH]; simpl; constructor; auto.
Qed.

Lemma basis_major_Qeq {A} (g g' : A → Vec3) (xs : list A) :
  (∀ t, vec_eq (g t) (g' t)) →
  Forall2 Qeq (basis_major (g <$> xs)) (basis_major (g' <$> xs)).
Proof.
  intros Heq. unfold basis_major. repeat apply Forall2_app.
  - apply (fmap_component_Qeq (λ v, v.1.1)). intros t. apply Heq.
  - apply (fmap_component_Qeq (λ v, v.1.2)). intros t. apply Heq.
  - apply (fmap_component_Qeq (λ v, v.2)). intros t. apply Heq.
Qed.

(** C5.  The generator is the antisymmetric matrix of the claim.  For each
    time point on its own the model function passes [A * t], every entry of
    [A] times [t], to [expm] and multiplies the result with the initial
    vector (0, 0, 1), which gives the third column of [expm (A * t)].  It
    lays these vectors out in basis-major order: all x values, then all y
    values, then all z values.  The data reduction lays out the expectation
    values of its circuits in the same order. *)
Theorem bloch_fit_fun_basis_major (expm : Mat3 → Mat3) (x : list Q)
    (omega_x omega_y delta : Q) :
  mat_a omega_x omega_y delta
  = ((0, delta, omega_y), (- delta, 0, - omega_x), (- omega_y, omega_x, 0))%Q
  ∧ mat_T (mat_a omega_x omega_y delta) = mat_opp (mat_a omega_x omega_y delta)
  ∧ (∀ t, mat_scale (mat_a omega_x omega_y delta) t
          = generator_at omega_x omega_y delta t)
  ∧ (∀ m, vec_eq (mat_vec m (0, 0, 1)%Q) (third_column m))
  ∧ _bloch_equation_fit_fun expm x omega_x omega_y delta
    = basis_major
        ((λ t, mat_vec (expm (mat_scale (mat_a omega_x omega_y delta) t))
                 (0, 0, 1)%Q) <$> x)
  ∧ Forall2 Qeq
      (_bloch_equation_fit_fun expm x omega_x omega_y delta)
      (basis_major
         ((λ t, third_column (expm (generator_at omega_x omega_y delta t)))
            <$> x))
  ∧ (∀ (f : Fitter) (serieslbl : string) (qind : nat) (e : YEntry),
       calc_qubit f serieslbl qind = inr e →
       ∃ vs : list Vec3,
         Forall2 (is_bloch_vec_of f serieslbl qind) (_circuit_names f) vs
         ∧ mean e = Some (basis_major vs)).
Proof.
  assert (_bloch_equation_fit_fun expm x omega_x omega_y delta
          = basis_major
              ((λ t, mat_vec (expm (mat_scale (mat_a omega_x omega_y delta) t))
                       (0, 0, 1)%Q) <$> x)) as Hlayout.
  { unfold _bloch_equation_fit_fun, bloch_vec, vec_r_t0.
    rewrite np_transpose3_columns_fmap.
    unfold np_ravel3. simpl. rewrite app_nil_r.
    apply np_ravel_basis_major. }
  split; [reflexivity|]. split; [|split; [|split; [|split; [|split]]]].
  - destruct omega_x as [nx px], omega_y as [ny py], delta as [nd pd].
    unfold mat_a, mat_T, mat_opp, Qopp. simpl. by rewrite !Z.opp_involutive.
  - reflexivity.
  - apply mat_vec_third_column.
  - exact Hlayout.
  - rewrite Hlayout. apply basis_major_Qeq. intros t.
    apply (mat_vec_third_column (expm (generator_at omega_x omega_y delta t))).
  - intros f serieslbl qind e He.
    destruct (calc_qubit_inr f serieslbl qind e He) as (vs & Hvs & Hmean & _).
    by exists vs.
Qed.

Lemma bloch_fit_fun_basis_major_witness :
  Forall2 Qeq
    (_bloch_equation_fit_fun ex_expm [1; 2]%Q 1 2 3)
    (basis_major
       ((λ t, third_column (ex_expm (generator_at 1 2 3 t))) <$> [1; 2]%Q))
  ∧ ∃ vs : list Vec3,
      Forall2 (is_bloch_vec_of ex_fitter_two "0" 0)
        (_circuit_names ex_fitter_two) vs
      ∧ mean {| mean := Some [2 # 4; -2 # 4; 0 # 4; 4 # 4; 4 # 4; -4 # 4]%Q;
                std := None |}
        = Some (basis_major vs).
Proof.
  destruct (bloch_fit_fun_basis_major ex_expm [1; 2]%Q 1 2 3)
    as (_ & _ & _ & _ & _ & Hmodel & Hdata).
  split; [exact Hmodel|].
  apply Hdata. vm_compute. reflexivity.
Defined.

(** With I + M for [expm], two time points 1 and 2 and parameters 1, 2, 3
    the model function gives x = 2, 4, then y = -1, -2, then z = 1, 1. *)
Example bloch_fit_fun_two_points :
  Forall2 Qeq (_bloch_equation_fit_fun ex_expm [1; 2]%Q 1 2 3)
    [2; 4; -1; -2; 1; 1]%Q.
Proof. repeat constructor. Qed.

(** ** The reduced observable table *)

Lemma calc_series_inr (f : Fitter) (ydata ydata' : gmap string (list YEntry))
    (serieslbl : string) :
  calc_series f ydata serieslbl = inr ydata' →
  ∃ entries, ydata' = <[serieslbl := entries]> ydata ∧ table_row_ok f entries.
Proof.
  unfold calc_series. intros (entries & Hentries & [= <-])%bind_inr.
  exists entries. split; [reflexivity|]. split.
  - apply map_py_length in Hentries. by rewrite Hentries, length_seq.
  - apply map_py_inr in Hentries.
    induction Hentries as [|qind e qinds es He _ IH]; constructor; [|exact IH].
    apply calc_qubit_inr in He as (vs & Hvs & Hmean & Hstd).
    split; [exact Hstd|]. exists (basis_major vs). split; [exact Hmean|].
    rewrite length_basis_major. f_equal. symmetry. by eapply Forall2_length.
Qed.

Lemma calc_loop_table (f : Fitter) (series : list string)
    (ydata ydata' : gmap string (list YEntry)) :
  for_each (calc_series f) series ydata = inr ydata' →
  (∀ s, s ∈ series → ∃ entries, ydata' !! s = Some entries ∧ table_row_ok f entries)
  ∧ (∀ s, s ∉ series → ydata' !! s = ydata !! s)
  ∧ ((∀ s entries, ydata !! s = Some entries → table_row_ok f entries) →
     ∀ s entries, ydata' !! s = Some entries → table_row_ok f entries).
Proof.
  revert ydata. induction series as [|s0 series IH]; intros ydata; simpl.
  - intros [= <-]. split; [|split].
    + intros s Hs. by apply elem_of_nil in Hs.
    + reflexivity.
    + auto.
  - intros (ydata1 & Hstep & Hrest)%bind_inr.
    apply calc_series_inr in Hstep as (entries0 & -> & Hrow).
    destruct (IH _ Hrest) as (Hin & Hout & Hkeep).
    assert ((∀ s entries, ydata !! s = Some entries → table_row_ok f entries) →
            ∀ s entries, ydata' !! s = Some entries → table_row_ok f entries)
      as Hkeep'.
    { intros Hold. apply Hkeep. intros s entries.
      destruct (decide (s0 = s)) as [<- | Hne].
      - rewrite lookup_insert_eq. by intros [= <-].
      - rewrite lookup_insert_ne by exact Hne. apply Hold. }
    split; [|split; [|exact Hkeep']].
    + intros s Hs. destruct (decide (s ∈ series)) as [Hlater | Hnot].
      * by apply Hin.
      * apply elem_of_cons in Hs as [-> | Hs]; [|done].
        exists entries0. split; [|exact Hrow].
        rewrite (Hout _ Hnot). apply lookup_insert_eq.
    + intros s Hs. apply not_elem_of_cons in Hs as [Hne Hnot].
      rewrite (Hout _ Hnot). by apply lookup_insert_ne.
Qed.

Lemma hamiltonian_keeps_rest (f f' : Fitter) (h : gmap Z (gmap string Q)) :
  hamiltonian f = inr (h, f') → f' = set_hamiltonian f h.
Proof.
  unfold hamiltonian. by intros (h' & _ & [= <- <-])%bind_inr.
Qed.

(** C9, as the code has it.  After a pass that completes, the table holds
    for every series one entry per measured qubit; the mean of an entry has
    three values per time point, and its standard error is [None]: the pass
    never fills it.  The pass changes nothing but the table, and reading the
    derived Hamiltonian afterwards leaves the table as it is. *)
Theorem calc_data_table (f f' : Fitter) :
  _calc_data f = inr f' →
  (∀ s, s ∈ _series f →
        ∃ entries, _ydata f' !! s = Some entries ∧ table_row_ok f entries)
  ∧ (∀ s, s ∉ _series f → _ydata f' !! s = None)
  ∧ f' = set_ydata f (_ydata f')
  ∧ (∀ h f'', hamiltonian f' = inr (h, f'') → _ydata f'' = _ydata f').
Proof.
  unfold _calc_data. intros (ydata & Hloop & [= <-])%bind_inr.
  destruct (calc_loop_table _ _ _ _ Hloop) as (Hin & Hout & _).
  split; [exact Hin|]. split; [|split].
  - intros s Hs. simpl. by rewrite (Hout _ Hs).
  - reflexivity.
  - intros h f'' ->%hamiltonian_keeps_rest. reflexivity.
Qed.

Lemma calc_data_table_witness :
  ∃ f', _calc_data ex_fitter = inr f'
        ∧ (∃ entries, _ydata f' !! "0" = Some entries
                      ∧ table_row_ok ex_fitter entries)
        ∧ _ydata f' !! "2" = None.
Proof.
  destruct (_calc_data ex_fitter) as [e|f'] eqn:Hrun;
    [vm_compute in Hrun; discriminate|].
  exists f'. split; [reflexivity|].
  destruct (calc_data_table ex_fitter f' Hrun) as (Hin & Hout & _).
  split.
  - apply Hin. unfold ex_fitter, ex_fitter_with, cr_series. simpl.
    apply list_elem_of_In. simpl. auto.
  - apply Hout. unfold ex_fitter, ex_fitter_with, cr_series. simpl.
    intros Hin2%list_elem_of_In. simpl in Hin2.
    destruct Hin2 as [Heq | [Heq | []]]; discriminate.
Defined.

(** C9, as the claim has it, fails: after a completed pass the entry of
    series '0' and qubit 0 holds its mean values but no standard-error
    values. *)
Lemma std_never_filled :
  ∃ f' e, _calc_data ex_fitter = inr f'
          ∧ _ydata f' !! "0" ≫= (λ entries, entries !! 0%nat) = Some e
          ∧ mean e = Some [2 # 4; 0 # 4; 4 # 4]%Q
          ∧ std e = None.
Proof.
  destruct (_calc_data ex_fitter) as [e|f'] eqn:Hrun;
    [vm_compute in Hrun; discriminate|].
  exists f', {| mean := Some [2 # 4; 0 # 4; 4 # 4]%Q; std := None |}.
  split; [reflexivity|].
  split; [|split; reflexivity].
  vm_compute in Hrun. injection Hrun as <-. vm_compute. reflexivity.
Qed.

(** ** The derived Hamiltonian *)

Lemma set_term_inr (h h' : gmap Z (gmap string Q)) (qid : Z) (label : string)
    (value : Py Q) :
  set_term h qid label value = inr h' ↔
  ∃ v terms, value = inr v ∧ h !! qid = Some terms
             ∧ h' = <[qid := <[label := v]> terms]> h.
Proof.
  unfold set_term. rewrite bind_inr. split.
  - intros (v & Hv & Hset). destruct (h !! qid) as [terms|]; [|discriminate].
    injection Hset as <-. by exists v, terms.
  - intros (v & terms & Hv & Hterms & ->). exists v. by rewrite Hterms.
Qed.

Lemma set_term_other (h h' : gmap Z (gmap string Q)) (qid q : Z)
    (label : string) (value : Py Q) :
  set_term h qid label value = inr h' → q ≠ qid → h' !! q = h !! q.
Proof.
  intros (v & terms & _ & _ & ->)%set_term_inr Hne.
  by rewrite lookup_insert_ne.
Qed.

Lemma hamiltonian_step_other (f : Fitter) (h h' : gmap Z (gmap string Q))
    (qid q : Z) :
  hamiltonian_step f h qid = inr h' → q ≠ qid → h' !! q = h !! q.
Proof.
  unfold hamiltonian_step. intros Hstep Hne.
  apply bind_inr in Hstep as (p0 & _ & Hstep).
  apply bind_inr in Hstep as (p1 & _ & Hstep).
  apply bind_inr in Hstep as (h1 & H1 & Hstep).
  apply bind_inr in Hstep as (h2 & H2 & Hstep).
  apply bind_inr in Hstep as (h3 & H3 & Hstep).
  apply bind_inr in Hstep as (h4 & H4 & Hstep).
  apply bind_inr in Hstep as (h5 & H5 & H6).
  rewrite (set_term_other _ _ _ _ _ _ H6 Hne), (set_term_other _ _ _ _ _ _ H5 Hne),
    (set_term_other _ _ _ _ _ _ H4 Hne), (set_term_other _ _ _ _ _ _ H3 Hne),
    (set_term_other _ _ _ _ _ _ H2 Hne).
  exact (set_term_other _ _ _ _ _ _ H1 Hne).
Qed.

Section Coefficients.
Variable f : Fitter.
Variable qid : Z.
Variables wx0 wy0 d0 wx1 wy1 d1 : Q.
Hypothesis Hparams0 : fit_params f "0" qid = inr [wx0; wy0; d0].
Hypothesis Hparams1 : fit_params f "1" qid = inr [wx1; wy1; d1].

Local Abbreviation holds_terms := (holds_terms qid wx0 wy0 d0 wx1 wy1 d1).

Lemma hamiltonian_step_writes (h h' : gmap Z (gmap string Q)) :
  hamiltonian_step f h qid = inr h' → holds_terms h'.
Proof.
  unfold hamiltonian_step. rewrite Hparams0, Hparams1. cbn [bind].
  intros Hstep.
  apply bind_inr in Hstep as (h1 & H1 & Hstep).
  apply bind_inr in Hstep as (h2 & H2 & Hstep).
  apply bind_inr in Hstep as (h3 & H3 & Hstep).
  apply bind_inr in Hstep as (h4 & H4 & Hstep).
  apply bind_inr in Hstep as (h5 & H5 & H6).
  apply set_term_inr in H1 as (v1 & t1 & [= <-] & Ht1 & ->).
  apply set_term_inr in H2 as (v2 & t2 & [= <-] & Ht2 & ->).
  rewrite lookup_insert_eq in Ht2. injection Ht2 as <-.
  apply set_term_inr in H3 as (v3 & t3 & [= <-] & Ht3 & ->).
  rewrite lookup_insert_eq in Ht3. injection Ht3 as <-.
  apply set_term_inr in H4 as (v4 & t4 & [= <-] & Ht4 & ->).
  rewrite lookup_insert_eq in Ht4. injection Ht4 as <-.
  apply set_term_inr in H5 as (v5 & t5 & [= <-] & Ht5 & ->).
  rewrite lookup_insert_eq in Ht5. injection Ht5 as <-.
  apply set_term_inr in H6 as (v6 & t6 & [= <-] & Ht6 & ->).
  rewrite lookup_insert_eq in Ht6. injection Ht6 as <-.
  eexists. split; [apply lookup_insert_eq|].
  split; by simplify_map_eq.
Qed.

Lemma hamiltonian_step_keeps (h h' : gmap Z (gmap string Q)) (q : Z) :
  hamiltonian_step f h q = inr h' → holds_terms h → holds_terms h'.
Proof.
  intros Hstep Hh. destruct (decide (q = qid)) as [Heq | Hne].
  - rewrite Heq in Hstep. by eapply hamiltonian_step_writes.
  - destruct Hh as (terms & Hterms & Hcoeff). exists terms.
    split; [|exact Hcoeff].
    rewrite (hamiltonian_step_other _ _ _ _ _ Hstep) by congruence.
    exact Hterms.
Qed.

Lemma hamiltonian_loop_writes (qubits : list Z) (h h' : gmap Z (gmap string Q)) :
  for_each (hamiltonian_step f) qubits h = inr h' →
  qid ∈ qubits ∨ holds_terms h → holds_terms h'.
Proof.
  revert h. induction qubits as [|q qubits IH]; intros h; simpl.
  - intros [= <-] [Hin | Hh]; [by apply elem_of_nil in Hin | exact Hh].
  - intros (h1 & Hstep & Hrest)%bind_inr Hcase.
    apply (IH _ Hrest).
    destruct Hcase as [[Heq | Hin]%elem_of_cons | Hh].
    + right. rewrite <- Heq in Hstep. by eapply hamiltonian_step_writes.
    + by left.
    + right. by eapply hamiltonian_step_keeps.
Qed.
End Coefficients.

(** The access succeeds when every measured qubit has an entry in
    [_hamiltonian] and at least three fitted parameters in both series. *)
Lemma half_sum_inr (p0 p1 : list Q) (i : nat) :
  (i < length p0)%nat → (i < length p1)%nat → ∃ v, half_sum p0 p1 i = inr v.
Proof.
  intros [a Ha]%lookup_lt_is_Some [b Hb]%lookup_lt_is_Some.
  unfold half_sum, list_item. rewrite Ha, Hb. by eexists.
Qed.

Lemma half_diff_inr (p0 p1 : list Q) (i : nat) :
  (i < length p0)%nat → (i < length p1)%nat → ∃ v, half_diff p0 p1 i = inr v.
Proof.
  intros [a Ha]%lookup_lt_is_Some [b Hb]%lookup_lt_is_Some.
  unfold half_diff, list_item. rewrite Ha, Hb. by eexists.
Qed.

Lemma set_term_succeeds (h : gmap Z (gmap string Q)) (qid : Z) (label : string)
    (value : Py Q) :
  (∃ v, value = inr v) → is_Some (h !! qid) →
  ∃ h', set_term h qid label value = inr h' ∧ is_Some (h' !! qid).
Proof.
  intros [v ->] [terms Hterms]. unfold set_term. simpl. rewrite Hterms.
  eexists. split; [reflexivity|]. rewrite lookup_insert_eq. by eexists.
Qed.

Lemma hamiltonian_step_succeeds (f : Fitter) (h : gmap Z (gmap string Q))
    (qid : Z) (p0 p1 : list Q) :
  fit_params f "0" qid = inr p0 → fit_params f "1" qid = inr p1 →
  (3 ≤ length p0)%nat → (3 ≤ length p1)%nat → is_Some (h !! qid) →
  ∃ h', hamiltonian_step f h qid = inr h'.
Proof.
  intros Hp0 Hp1 Hlen0 Hlen1 Hh. unfold hamiltonian_step.
  rewrite Hp0, Hp1. cbn [bind].
  destruct (set_term_succeeds h qid "XI" (half_sum p0 p1 0)) as (h1 & -> & Hh1);
    [apply half_sum_inr; lia | exact Hh |]. cbn [bind].
  destruct (set_term_succeeds h1 qid "YI" (half_sum p0 p1 1)) as (h2 & -> & Hh2);
    [apply half_sum_inr; lia | exact Hh1 |]. cbn [bind].
  destruct (set_term_succeeds h2 qid "ZI" (half_sum p0 p1 2)) as (h3 & -> & Hh3);
    [apply half_sum_inr; lia | exact Hh2 |]. cbn [bind].
  destruct (set_term_succeeds h3 qid "XZ" (half_diff p0 p1 0)) as (h4 & -> & Hh4);
    [apply half_diff_inr; lia | exact Hh3 |]. cbn [bind].
  destruct (set_term_succeeds h4 qid "YZ" (half_diff p0 p1 1)) as (h5 & -> & Hh5);
    [apply half_diff_inr; lia | exact Hh4 |]. cbn [bind].
  destruct (set_term_succeeds h5 qid "ZZ" (half_diff p0 p1 2)) as (h6 & -> & Hh6);
    [apply half_diff_inr; lia | exact Hh5 |].
  by eexists.
Qed.

Lemma hamiltonian_step_keeps_entries (f : Fitter) (h h' : gmap Z (gmap string Q))
    (qid q : Z) :
  hamiltonian_step f h qid = inr h' → is_Some (h !! q) → is_Some (h' !! q).
Proof.
  intros Hstep Hq. destruct (decide (q = qid)) as [-> | Hne].
  - unfold hamiltonian_step in Hstep.
    do 7 (apply bind_inr in Hstep as (? & _ & Hstep)).
    apply set_term_inr in Hstep as (v & terms & _ & _ & ->).
    rewrite lookup_insert_eq. by eexists.
  - by rewrite (hamiltonian_step_other _ _ _ _ _ Hstep Hne).
Qed.

Lemma hamiltonian_succeeds (f : Fitter) :
  (∀ qid, qid ∈ measured_qubits f →
     is_Some (_hamiltonian f !! qid)
     ∧ ∃ p0 p1, fit_params f "0" qid = inr p0 ∧ fit_params f "1" qid = inr p1
                ∧ (3 ≤ length p0)%nat ∧ (3 ≤ length p1)%nat) →
  ∃ h, hamiltonian f = inr (h, set_hamiltonian f h).
Proof.
  intros Hwf. unfold hamiltonian.
  assert (∀ (qubits : list Z) (h : gmap Z (gmap string Q)),
            (∀ qid, qid ∈ qubits → qid ∈ measured_qubits f) →
            (∀ qid, qid ∈ measured_qubits f → is_Some (h !! qid)) →
            ∃ h', for_each (hamiltonian_step f) qubits h = inr h') as Hloop.
  { induction qubits as [|q qubits IH]; intros h Hsub Hh; simpl.
    - by eexists.
    - destruct (Hwf q) as (_ & p0 & p1 & Hp0 & Hp1 & Hlen0 & Hlen1);
        [apply Hsub; by left|].
      destruct (hamiltonian_step_succeeds f h q p0 p1) as [h1 Hstep]; auto.
      { apply Hh, Hsub. by left. }
      rewrite Hstep. cbn [bind]. apply IH.
      + intros qid Hin. apply Hsub. by right.
      + intros qid Hin. eapply hamiltonian_step_keeps_entries; eauto. }
  destruct (Hloop (measured_qubits f) (_hamiltonian f)) as [h ->]; [auto|..].
  - intros qid Hin. by apply Hwf.
  - by exists h.
Qed.

(** C1, as the code has it.  For a measured qubit whose fitted parameter
    vectors are (wx0, wy0, d0) for series '0' and (wx1, wy1, d1) for series
    '1', the mapping returned by [hamiltonian] holds the six coefficients of
    the claim, each computed from the two parameter vectors alone.  The
    access has one effect: the mapping returned is the fitter's own
    [_hamiltonian], updated in place; nothing else of the fitter changes. *)
Theorem hamiltonian_coefficients (f f' : Fitter) (h : gmap Z (gmap string Q))
    (qid : Z) (wx0 wy0 d0 wx1 wy1 d1 : Q) :
  qid ∈ measured_qubits f →
  fit_params f "0" qid = inr [wx0; wy0; d0] →
  fit_params f "1" qid = inr [wx1; wy1; d1] →
  hamiltonian f = inr (h, f') →
  (∃ terms, h !! qid = Some terms
            ∧ has_coefficients terms wx0 wy0 d0 wx1 wy1 d1)
  ∧ f' = set_hamiltonian f h.
Proof.
  intros Hin Hp0 Hp1 Hrun. split; [|by apply hamiltonian_keeps_rest].
  unfold hamiltonian in Hrun.
  apply bind_inr in Hrun as (h' & Hloop & [= <- _]).
  eapply hamiltonian_loop_writes; eauto.
Qed.

Lemma hamiltonian_coefficients_witness :
  ∃ h f', hamiltonian ex_fitter = inr (h, f')
          ∧ (∃ terms, h !! 0 = Some terms
                      ∧ has_coefficients terms 3 1 5 1 1 2)
          ∧ f' = set_hamiltonian ex_fitter h.
Proof.
  destruct (hamiltonian ex_fitter) as [e|[h f']] eqn:Hrun;
    [vm_compute in Hrun; discriminate|].
  exists h, f'. split; [reflexivity|].
  apply (hamiltonian_coefficients ex_fitter f' h 0 3 1 5 1 1 2).
  - apply list_elem_of_In. simpl. auto.
  - reflexivity.
  - reflexivity.
  - exact Hrun.
Defined.

(** C1, as the claim has it, fails: the access is not free of side effects.
    Before it the fitter's [_hamiltonian] has no XI term for qubit 0; after it
    the same mapping holds (3 + 1) / 2, so the fitter has changed. *)
Lemma hamiltonian_updates_fitter :
  ∃ h f', hamiltonian ex_fitter = inr (h, f')
          ∧ _hamiltonian ex_fitter !! 0 ≫= (λ terms, terms !! "XI") = None
          ∧ _hamiltonian f' !! 0 ≫= (λ terms, terms !! "XI") = Some (4 # 2)%Q
          ∧ f' ≠ ex_fitter.
Proof.
  destruct (hamiltonian ex_fitter) as [e|[h f']] eqn:Hrun;
    [vm_compute in Hrun; discriminate|].
  exists h, f'. split; [reflexivity|].
  assert (_hamiltonian f' !! 0 ≫= (λ terms, terms !! "XI") = Some (4 # 2)%Q)
    as Hafter.
  { vm_compute in Hrun. injection Hrun as <- <-. vm_compute. reflexivity. }
  split; [vm_compute; reflexivity|]. split; [exact Hafter|].
  intros ->. vm_compute in Hafter. discriminate.
Qed.

(** ** The ZZ rate *)

Lemma map_py_seq {B} (g : nat → Py B) (h : nat → option B) (start n : nat) :
  (∀ q, (q < n)%nat → ∃ y, h (start + q)%nat = Some y ∧ g (start + q)%nat = inr y) →
  ∃ ys, map_py g (seq start n) = inr ys
        ∧ length ys = n
        ∧ ∀ q, (q < n)%nat → ys !! q = h (start + q)%nat.
Proof.
  revert start. induction n as [|n IH]; intros start Hall; simpl.
  - exists []. split; [reflexivity|]. split; [reflexivity|]. lia.
  - destruct (Hall 0%nat ltac:(lia)) as (y & Hy & Hg).
    rewrite Nat.add_0_r in Hy, Hg.
    destruct (IH (S start)) as (ys & Hys & Hlen & Hlookup).
    { intros q Hq. destruct (Hall (S q) ltac:(lia)) as (y' & Hy' & Hg').
      exists y'. by rewrite Nat.add_succ_comm. }
    exists (y :: ys). rewrite Hg, Hys. split; [reflexivity|].
    split; [simpl; by rewrite Hlen|].
    intros [|q] Hq; simpl.
    + by rewrite Nat.add_0_r.
    + rewrite Hlookup by lia. by rewrite Nat.add_succ_comm.
Qed.

Lemma frequency_item (params : list (list Q)) (q : nat) (v : Q) :
  frequency params q = Some v →
  (let* p := list_item params q in list_item p 1) = inr v.
Proof.
  unfold frequency, list_item. destruct (params !! q) as [p|]; [|discriminate].
  simpl. by intros ->.
Qed.

Lemma get_param_scalar (f : ZZ.ZZFitter) (q : nat) (series : string)
    (params : list (list Q)) (v : Q) :
  ZZ._params f !! series = Some params →
  frequency params q = Some v →
  ZZ._get_param f 1 (Z.of_nat q) series = inr (ZZ.Scalar v).
Proof.
  intros Hparams Hv. unfold ZZ._get_param, dict_item. rewrite Hparams. simpl.
  rewrite decide_False by lia.
  unfold py_index. rewrite decide_True by lia. rewrite Nat2Z.id.
  unfold frequency, list_item in *.
  destruct (params !! q) as [p|]; [|discriminate]. simpl in *.
  by rewrite Hv.
Qed.

Lemma get_param_all (f : ZZ.ZZFitter) (series : string) (params : list (list Q)) :
  ZZ._params f !! series = Some params →
  (∀ q, (q < length (ZZ._qubits f))%nat → is_Some (frequency params q)) →
  ∃ vs, ZZ._get_param f 1 (-1) series = inr (ZZ.Array1 vs)
        ∧ length vs = length (ZZ._qubits f)
        ∧ ∀ q, (q < length (ZZ._qubits f))%nat → vs !! q = frequency params q.
Proof.
  intros Hparams Hall. unfold ZZ._get_param, dict_item. rewrite Hparams. simpl.
  destruct (map_py_seq
              (λ q, let* p := list_item params q in list_item p 1)
              (frequency params) 0 (length (ZZ._qubits f)))
    as (vs & Hvs & Hlen & Hlookup).
  { intros q Hq. destruct (Hall q Hq) as [v Hv]. exists v.
    split; [exact Hv | by apply frequency_item]. }
  exists vs. rewrite Hvs. simpl. split; [reflexivity|].
  split; [exact Hlen | exact Hlookup].
Qed.

(** C7.  [ZZ_rate] of a qubit index is the fitted frequency (parameter 1)
    of series '1' minus that of series '0' for that qubit; [ZZ_rate] of -1
    is a vector with one entry per qubit of the qubit list, each the
    difference of the two frequencies of that qubit. *)
Theorem ZZ_rate_frequency_difference (f : ZZ.ZZFitter)
    (params0 params1 : list (list Q)) :
  ZZ._params f !! "0" = Some params0 →
  ZZ._params f !! "1" = Some params1 →
  (∀ (q : nat) (f0 f1 : Q),
     frequency params0 q = Some f0 → frequency params1 q = Some f1 →
     ZZ.ZZ_rate f (Z.of_nat q) = inr (ZZ.Scalar (f1 - f0)%Q))
  ∧ ((∀ q, (q < length (ZZ._qubits f))%nat →
           is_Some (frequency params0 q) ∧ is_Some (frequency params1 q)) →
     ∃ rates,
       ZZ.ZZ_rate f (-1) = inr (ZZ.Array1 rates)
       ∧ length rates = length (ZZ._qubits f)
       ∧ ∀ (q : nat) (f0 f1 : Q),
           (q < length (ZZ._qubits f))%nat →
           frequency params0 q = Some f0 → frequency params1 q = Some f1 →
           rates !! q = Some (f1 - f0)%Q).
Proof.
  intros Hp0 Hp1. split.
  - intros q f0 f1 Hf0 Hf1. unfold ZZ.ZZ_rate.
    rewrite (get_param_scalar f q "0" params0 f0 Hp0 Hf0).
    rewrite (get_param_scalar f q "1" params1 f1 Hp1 Hf1).
    reflexivity.
  - intros Hall. unfold ZZ.ZZ_rate.
    destruct (get_param_all f "0" params0 Hp0) as (vs0 & -> & Hlen0 & Hvs0);
      [intros q Hq; by apply Hall|].
    destruct (get_param_all f "1" params1 Hp1) as (vs1 & -> & Hlen1 & Hvs1);
      [intros q Hq; by apply Hall|].
    simpl. rewrite decide_True by congruence.
    eexists. split; [reflexivity|]. split.
    + rewrite length_zip_with. lia.
    + intros q f0 f1 Hq Hf0 Hf1. rewrite lookup_zip_with.
      rewrite (Hvs1 q Hq), Hf1. simpl. rewrite (Hvs0 q Hq), Hf0. reflexivity.
Qed.

Lemma ZZ_rate_frequency_difference_witness :
  ZZ.ZZ_rate ex_zz_fitter (Z.of_nat 1) = inr (ZZ.Scalar (9 - 5)%Q)
  ∧ ∃ rates, ZZ.ZZ_rate ex_zz_fitter (-1) = inr (ZZ.Array1 rates)
             ∧ length rates = length (ZZ._qubits ex_zz_fitter)
             ∧ ∀ (q : nat) (f0 f1 : Q),
                 (q < length (ZZ._qubits ex_zz_fitter))%nat →
                 frequency [[1; 2; 3]; [4; 5; 6]]%Q q = Some f0 →
                 frequency [[1; 7; 3]; [4; 9; 6]]%Q q = Some f1 →
                 rates !! q = Some (f1 - f0)%Q.
Proof.
  destruct (ZZ_rate_frequency_difference ex_zz_fitter
              [[1; 2; 3]; [4; 5; 6]]%Q [[1; 7; 3]; [4; 9; 6]]%Q)
    as [Hone Hall]; [reflexivity | reflexivity |].
  split.
  - apply Hone; reflexivity.
  - apply Hall. intros q Hq. simpl in Hq.
    destruct q as [|[|q]]; [split; by eexists.. | lia].
Defined.

(** * Further properties of the code *)

(** ** The bit-ordering convention *)

Lemma string_get_lookup (s : string) (n : nat) :
  String.get n s = list_ascii_of_string s !! n.
Proof.
  revert n. induction s as [|c s IH]; intros [|n]; simpl; auto.
Qed.

(** Character [qind] of the reversed key is the character [qind] places
    from the right end of the key: qubit 0 is the last character. *)
Theorem reversed_char_from_right (s : string) (qind : nat) :
  (qind < String.length s)%nat →
  reversed_char s qind = String.get (String.length s - 1 - qind) s.
Proof.
  intros Hlen. unfold reversed_char.
  rewrite reverse_lookup by (by rewrite length_list_ascii_of_string).
  rewrite string_get_lookup, length_list_ascii_of_string.
  f_equal. lia.
Qed.

Lemma reversed_char_from_right_witness :
  reversed_char "011" 2 = String.get (String.length "011" - 1 - 2) "011".
Proof. apply reversed_char_from_right. simpl. lia. Defined.

(** ** The expectation value, for any keys *)




Lemma total_count_perm (counts counts' : Counts) :
  counts ≡ₚ counts' → total_count counts = total_count counts'.
Proof.
  induction 1 as [|item l l' _ IH|a b l|l1 l2 l3 _ IH1 _ IH2]; simpl.
  - reflexivity.
  - by rewrite IH.
  - lia.
  - congruence.
Qed.

Lemma signed_sum_perm (qind : nat) (counts counts' : Counts) :
  counts ≡ₚ counts' → signed_sum qind counts = signed_sum qind counts'.
Proof.
  induction 1 as [|item l l' _ IH|a b l|l1 l2 l3 _ IH1 _ IH2]; simpl.
  - reflexivity.
  - by rewrite IH.
  - lia.
  - congruence.
Qed.

(** The order in which the dictionary yields its items does not matter:
    two item lists that are permutations of each other give the same value
    or raise the same exception. *)
Theorem calc_expv_order_independent (qind : nat) (counts counts' : Counts) :
  counts ≡ₚ counts' → calc_expv qind counts = calc_expv qind counts'.
Proof.
  intros Hperm.
  destruct (decide (Forall (λ item, (qind < String.length item.1)%nat) counts))
    as [Hlong | Hshort].
  - assert (Forall (λ item, (qind < String.length item.1)%nat) counts')
      as Hlong' by (by rewrite <- Hperm).
    unfold calc_expv. rewrite !eigen_loop_inr by assumption. simpl.
    by rewrite (signed_sum_perm _ _ _ Hperm), (total_count_perm _ _ Hperm).
  - assert (Exists (λ item, (String.length item.1 ≤ qind)%nat) counts) as Hex.
    { apply not_Forall_Exists in Hshort; [|intros item; apply _].
      eapply Exists_impl; [exact Hshort|]. intros item Hlen. simpl in *. lia. }
    assert (Exists (λ item, (String.length item.1 ≤ qind)%nat) counts')
      as Hex' by (by rewrite <- Hperm).
    unfold calc_expv. by rewrite !eigen_loop_raises.
Qed.

Lemma calc_expv_order_independent_witness :
  calc_expv 0 [("00", 3); ("01", 1)] = calc_expv 0 [("01", 1); ("00", 3)].
Proof. apply calc_expv_order_independent. apply perm_swap. Defined.

(** ** Exceptions of the backend that the lookup does not catch *)

(** An exception of [get_counts] other than [QiskitError] and [KeyError]
    leaves the lookup loop at once, whatever the later results hold, and
    the reduction of that experiment raises it. *)
Theorem lookup_counts_propagates (name : string) (before after : list Result)
    (r : Result) (e : exn) (qind : nat) :
  Forall (answers name) before →
  get_counts r name = inl e →
  caught e = false →
  lookup_counts (before ++ r :: after) name = inl e
  ∧ experiment_expv (before ++ r :: after) name qind = inl e.
Proof.
  intros Hbefore Hr Hcaught.
  assert (lookup_counts (before ++ r :: after) name = inl e) as Hlookup.
  { unfold lookup_counts. rewrite for_each_app.
    destruct (lookup_loop_answers name before [] Hbefore) as [c ->].
    simpl. unfold lookup_step at 1. by rewrite Hr, Hcaught. }
  split; [exact Hlookup|]. unfold experiment_expv. by rewrite Hlookup.
Qed.

Lemma lookup_counts_propagates_witness :
  lookup_counts ([ex_result_first] ++ ex_result_broken :: [ex_result_second])
    "cr_ham_tomo_sched_0_x_0" = inl (OtherError "ConnectionError")
  ∧ experiment_expv ([ex_result_first] ++ ex_result_broken :: [ex_result_second])
      "cr_ham_tomo_sched_0_x_0" 0 = inl (OtherError "ConnectionError").
Proof.
  apply lookup_counts_propagates.
  - apply List.Forall_cons; [|apply List.Forall_nil].
    left. exists ex_counts. reflexivity.
  - reflexivity.
  - reflexivity.
Defined.

(** ** Circuit and experiment names *)

Lemma string_length_app (s t : string) :
  String.length (s +:+ t) = (String.length s + String.length t)%nat.
Proof. induction s as [|c s IH]; simpl; [reflexivity | by rewrite IH]. Qed.

(** Two concatenations with suffixes of the same length agree only if both
    parts agree. *)
Lemma string_app_inj_length (s1 s2 t1 t2 : string) :
  String.length t1 = String.length t2 →
  s1 +:+ t1 = s2 +:+ t2 → s1 = s2 ∧ t1 = t2.
Proof.
  intros Hlen. revert s2.
  induction s1 as [|c1 s1 IH]; intros [|c2 s2] Heq.
  - done.
  - change (t1 = String c2 (s2 +:+ t2)) in Heq.
    rewrite Heq in Hlen. cbn [String.length] in Hlen.
    rewrite string_length_app in Hlen. lia.
  - change (String c1 (s1 +:+ t1) = t2) in Heq.
    rewrite <- Heq in Hlen. cbn [String.length] in Hlen.
    rewrite string_length_app in Hlen. lia.
  - change (String c1 (s1 +:+ t1) = String c2 (s2 +:+ t2)) in Heq.
    injection Heq as -> Heq. destruct (IH _ Heq) as [-> ->]. done.
Qed.

Lemma cr_name_inj : Inj (=) (=) (λ cind : nat, "cr_ham_tomo_sched_" +:+ pretty cind).
Proof. intros x y Heq. apply (inj (String.app _)) in Heq. by apply (inj pretty). Qed.

Lemma zz_name_inj : Inj (=) (=) (λ cind : nat, "zzcircuit_" +:+ pretty cind +:+ "_").
Proof.
  intros x y Heq. apply (inj (String.app _)) in Heq.
  apply string_app_inj_length in Heq as [Heq _]; [|reflexivity].
  by apply (inj pretty).
Qed.

(** Both constructors make one circuit name per time point, the name of
    time point [k] carries the decimal numeral of [k], and no two time
    points share a name. *)
Theorem circuit_names_distinct {T} (xdata : list T) :
  length (cr_circuit_names xdata) = length xdata
  ∧ length (zz_circuit_names xdata) = length xdata
  ∧ (∀ k, (k < length xdata)%nat →
          cr_circuit_names xdata !! k = Some ("cr_ham_tomo_sched_" +:+ pretty k)
          ∧ zz_circuit_names xdata !! k = Some ("zzcircuit_" +:+ pretty k +:+ "_"))
  ∧ NoDup (cr_circuit_names xdata)
  ∧ NoDup (zz_circuit_names xdata).
Proof.
  unfold cr_circuit_names, zz_circuit_names.
  split; [by rewrite length_fmap, length_seq|].
  split; [by rewrite length_fmap, length_seq|].
  split; [|split].
  - intros k Hk. rewrite !list_lookup_fmap, lookup_seq_lt by exact Hk. done.
  - pose proof cr_name_inj. apply NoDup_fmap_2; [assumption | apply NoDup_seq].
  - pose proof zz_name_inj. apply NoDup_fmap_2; [assumption | apply NoDup_seq].
Qed.

Lemma circuit_names_distinct_witness :
  cr_circuit_names [5%Q; 6%Q; 7%Q] !! 2%nat
  = Some ("cr_ham_tomo_sched_" +:+ pretty 2%nat)
  ∧ zz_circuit_names [5%Q; 6%Q; 7%Q] !! 2%nat
    = Some ("zzcircuit_" +:+ pretty 2%nat +:+ "_").
Proof.
  apply (circuit_names_distinct [5%Q; 6%Q; 7%Q]). simpl. lia.
Defined.

Lemma meas_basis_cases (axis : string) :
  axis ∈ meas_basis → axis = "x" ∨ axis = "y" ∨ axis = "z".
Proof.
  unfold meas_basis. rewrite !elem_of_cons, elem_of_nil. tauto.
Qed.

Lemma cr_series_cases (serieslbl : string) :
  serieslbl ∈ cr_series → serieslbl = "0" ∨ serieslbl = "1".
Proof.
  unfold cr_series. rewrite !elem_of_cons, elem_of_nil. tauto.
Qed.

(** The experiment names of different (circuit, axis, series) triples are
    different, whatever the circuit names are: a name determines its
    circuit, its measurement basis and its series. *)
Theorem expname_inj (circname circname' axis axis' serieslbl serieslbl' : string) :
  axis ∈ meas_basis → axis' ∈ meas_basis →
  serieslbl ∈ cr_series → serieslbl' ∈ cr_series →
  expname circname axis serieslbl = expname circname' axis' serieslbl' →
  circname = circname' ∧ axis = axis' ∧ serieslbl = serieslbl'.
Proof.
  intros Ha%meas_basis_cases Ha'%meas_basis_cases
         Hs%cr_series_cases Hs'%cr_series_cases Heq.
  unfold expname in Heq.
  destruct Ha as [-> | [-> | ->]], Ha' as [-> | [-> | ->]],
           Hs as [-> | ->], Hs' as [-> | ->];
    apply string_app_inj_length in Heq as [-> Heq]; try reflexivity;
    first [discriminate Heq | done].
Qed.

Lemma expname_inj_witness :
  "cr_ham_tomo_sched_1" = "cr_ham_tomo_sched_1" ∧ "y" = "y" ∧ "0" = "0".
Proof.
  apply expname_inj; try reflexivity;
    apply list_elem_of_In; simpl; auto.
Defined.

(** ** Failure and success of the loops *)

Lemma map_py_succeeds {A B} (g : A → Py B) (xs : list A) :
  (∀ x, x ∈ xs → ∃ y, g x = inr y) → ∃ ys, map_py g xs = inr ys.
Proof.
  induction xs as [|x xs IH]; intros Hall; simpl.
  - by eexists.
  - destruct (Hall x) as [y ->]; [by left|].
    destruct IH as [ys ->]; [intros x' Hx'; apply Hall; by right|].
    by eexists.
Qed.

Lemma map_py_inl {A B} (g : A → Py B) (xs : list A) (e : exn) :
  map_py g xs = inl e → ∃ x, x ∈ xs ∧ g x = inl e.
Proof.
  induction xs as [|x xs IH]; simpl; [discriminate|].
  destruct (g x) as [e'|y] eqn:Hx; simpl.
  - intros [= <-]. exists x. split; [by left | exact Hx].
  - destruct (map_py g xs) as [e'|ys]; simpl; [|discriminate].
    intros [= <-]. destruct IH as (x' & Hin & Hx'); [reflexivity|].
    exists x'. split; [by right | exact Hx'].
Qed.

Lemma for_each_inl {A S} (body : S → A → Py S) (xs : list A) (acc : S) (e : exn) :
  for_each body xs acc = inl e → ∃ x acc', x ∈ xs ∧ body acc' x = inl e.
Proof.
  revert acc. induction xs as [|x xs IH]; intros acc; simpl; [discriminate|].
  destruct (body acc x) as [e'|acc1] eqn:Hx; simpl.
  - intros [= <-]. exists x, acc. split; [by left | exact Hx].
  - intros (x' & acc' & Hin & Hx')%IH. exists x', acc'.
    split; [by right | exact Hx'].
Qed.

Lemma lookup_counts_inl (results : list Result) (name : string) (e : exn) :
  lookup_counts results name = inl e →
  caught e = false ∧ ∃ r, r ∈ results ∧ get_counts r name = inl e.
Proof.
  unfold lookup_counts. intros (r & acc & Hin & Hstep)%for_each_inl.
  unfold lookup_step in Hstep.
  destruct (get_counts r name) as [e'|found] eqn:Hr; [|discriminate].
  destruct (caught e') eqn:Hcaught; [discriminate|].
  injection Hstep as <-. split; [exact Hcaught|]. by exists r.
Qed.

Lemma calc_expv_inl (qind : nat) (counts : Counts) (e : exn) :
  calc_expv qind counts = inl e → e = ZeroDivisionError ∨ e = IndexError.
Proof.
  unfold calc_expv.
  destruct (for_each (eigen_step qind) counts 0) as [e'|expv] eqn:Hloop; simpl.
  - intros [= <-]. apply for_each_inl in Hloop as (item & acc & _ & Hstep).
    apply eigen_step_raises in Hstep as [-> _]. by right.
  - unfold true_div. case_decide; [|discriminate]. intros [= <-]. by left.
Qed.

Lemma experiment_expv_inl (results : list Result) (name : string) (qind : nat)
    (e : exn) :
  experiment_expv results name qind = inl e →
  e = ZeroDivisionError ∨ e = IndexError
  ∨ (caught e = false ∧ ∃ r, r ∈ results ∧ get_counts r name = inl e).
Proof.
  unfold experiment_expv.
  destruct (lookup_counts results name) as [e'|counts] eqn:Hlookup; simpl.
  - intros [= <-]. right. right. by apply lookup_counts_inl.
  - intros [He | He]%calc_expv_inl; auto.
Qed.

Lemma map_py_inr_elem {A B} (g : A → Py B) (xs : list A) (ys : list B) (x : A) :
  map_py g xs = inr ys → x ∈ xs → ∃ y, g x = inr y.
Proof.
  intros Hys%map_py_inr [i Hi]%list_elem_of_lookup.
  eapply Forall2_lookup_l in Hi as (y & _ & Hy); [|exact Hys]. by exists y.
Qed.

Lemma for_each_succeeds {A S} (body : S → A → Py S) (xs : list A) (acc : S) :
  (∀ x s, x ∈ xs → ∃ s', body s x = inr s') → ∃ s', for_each body xs acc = inr s'.
Proof.
  revert acc. induction xs as [|x xs IH]; intros acc Hall; simpl.
  - by eexists.
  - destruct (Hall x acc) as [s1 ->]; [by left|]. simpl.
    apply IH. intros x' s Hx'. apply Hall. by right.
Qed.

Lemma is_bloch_vec_of_axis (f : Fitter) (serieslbl : string) (qind : nat)
    (circname axis : string) (v : Vec3) :
  is_bloch_vec_of f serieslbl qind circname v → axis ∈ meas_basis →
  ∃ x, experiment_expv (_backend_result_list f)
         (expname circname axis serieslbl) qind = inr x.
Proof.
  intros (Hx & Hy & Hz) [-> | [-> | ->]]%meas_basis_cases; by eexists.
Qed.

(** The rows that the loop over the series leaves in the table are the
    results of [calc_qubit] for the qubit positions, in order. *)
Lemma calc_loop_rows (f : Fitter) (series : list string)
    (ydata ydata' : gmap string (list YEntry)) :
  for_each (calc_series f) series ydata = inr ydata' →
  ∀ s, s ∈ series →
    ∃ entries, ydata' !! s = Some entries
               ∧ map_py (calc_qubit f s) (seq 0 (length (measured_qubits f)))
                 = inr entries.
Proof.
  revert ydata. induction series as [|s0 series IH]; intros ydata; simpl.
  - intros _ s Hs. by apply elem_of_nil in Hs.
  - intros (ydata1 & Hstep & Hrest)%bind_inr s Hs.
    destruct (decide (s ∈ series)) as [Hlater | Hnot]; [by eapply IH|].
    apply elem_of_cons in Hs as [-> | Hs]; [|done].
    unfold calc_series in Hstep.
    apply bind_inr in Hstep as (entries & Hentries & [= <-]).
    exists entries. split; [|exact Hentries].
    destruct (calc_loop_table _ _ _ _ Hrest) as (_ & Hout & _).
    rewrite (Hout _ Hnot). apply lookup_insert_eq.
Qed.

(** ** What a completed pass leaves in the table *)

(** After a pass that completes, the entry of series [s] and qubit position
    [q] holds as its mean exactly the expectation values of the x, y and z
    experiments of every circuit, in circuit order: all x values, then all y
    values, then all z values. *)
Theorem calc_data_content (f f' : Fitter) (s : string) (q : nat) :
  _calc_data f = inr f' →
  s ∈ _series f →
  (q < length (measured_qubits f))%nat →
  ∃ entries e vs,
    _ydata f' !! s = Some entries
    ∧ entries !! q = Some e
    ∧ Forall2 (is_bloch_vec_of f s q) (_circuit_names f) vs
    ∧ mean e = Some (basis_major vs).
Proof.
  unfold _calc_data. intros (ydata & Hloop & [= <-])%bind_inr Hs Hq.
  destruct (calc_loop_rows _ _ _ _ Hloop s Hs) as (entries & Hrow & Hentries).
  apply map_py_inr in Hentries.
  destruct (Forall2_lookup_l _ _ _ q q Hentries) as (e & He & Hqubit);
    [by apply lookup_seq_lt|].
  apply calc_qubit_inr in Hqubit as (vs & Hvs & Hmean & _).
  by exists entries, e, vs.
Qed.

Lemma calc_data_content_witness :
  ∃ f' entries e vs,
    _calc_data ex_fitter = inr f'
    ∧ _ydata f' !! "1" = Some entries
    ∧ entries !! 0%nat = Some e
    ∧ Forall2 (is_bloch_vec_of ex_fitter "1" 0) (_circuit_names ex_fitter) vs
    ∧ mean e = Some (basis_major vs).
Proof.
  destruct (_calc_data ex_fitter) as [e|f'] eqn:Hrun;
    [vm_compute in Hrun; discriminate|].
  destruct (calc_data_content ex_fitter f' "1" 0 Hrun) as (entries & e & vs & H).
  - apply list_elem_of_In. simpl. auto.
  - simpl. lia.
  - by exists f', entries, e, vs.
Defined.

(** The pass completes exactly when every experiment it looks up yields an
    expectation value. *)
Theorem calc_data_succeeds_iff (f : Fitter) :
  (∃ f', _calc_data f = inr f')
  ↔ (∀ name qind, is_experiment_of f name qind →
       ∃ v, experiment_expv (_backend_result_list f) name qind = inr v).
Proof.
  split.
  - intros [f' Hrun] name qind (s & c & axis & Hs & Hq & Hc & Haxis & ->).
    unfold _calc_data in Hrun. apply bind_inr in Hrun as (ydata & Hloop & _).
    destruct (calc_loop_rows _ _ _ _ Hloop s Hs) as (entries & _ & Hentries).
    destruct (map_py_inr_elem _ _ _ qind Hentries) as [e He];
      [apply elem_of_seq; lia|].
    apply calc_qubit_inr in He as (vs & Hvs & _).
    apply list_elem_of_lookup in Hc as [i Hi].
    eapply Forall2_lookup_l in Hi as (v & _ & Hv); [|exact Hvs].
    by eapply is_bloch_vec_of_axis.
  - intros Hall. unfold _calc_data.
    destruct (for_each_succeeds (calc_series f) (_series f) ∅) as [ydata ->];
      [|by eexists].
    intros s ydata Hs. unfold calc_series.
    destruct (map_py_succeeds (calc_qubit f s)
                (seq 0 (length (measured_qubits f)))) as [entries ->];
      [|by eexists].
    intros qind [_ Hq]%elem_of_seq. unfold calc_qubit.
    destruct (map_py_succeeds (calc_bloch_vec f s qind) (_circuit_names f))
      as [vecs ->]; [|by eexists].
    intros c Hc. unfold calc_bloch_vec. apply map_py_succeeds.
    intros axis Haxis. apply Hall. exists s, c, axis. simpl in Hq. auto.
Qed.

Lemma calc_data_succeeds_iff_witness :
  ∃ v, experiment_expv (_backend_result_list ex_fitter)
         (expname "cr_ham_tomo_sched_0" "y" "1") 0 = inr v.
Proof.
  apply (proj1 (calc_data_succeeds_iff ex_fitter)).
  - destruct (_calc_data ex_fitter) as [e|f'] eqn:Hrun;
      [vm_compute in Hrun; discriminate | by exists f'].
  - exists "1", "cr_ham_tomo_sched_0", "y".
    repeat split; try (apply list_elem_of_In; simpl; auto).
    simpl. lia.
Defined.

(** A pass that raises raises the exception of one of its experiments, and
    that is [ZeroDivisionError] (empty or zero total), [IndexError] (a key
    too short for the qubit position) or an exception of a backend result
    that the lookup does not catch. *)
Theorem calc_data_failure (f : Fitter) (e : exn) :
  _calc_data f = inl e →
  ∃ name qind,
    is_experiment_of f name qind
    ∧ experiment_expv (_backend_result_list f) name qind = inl e
    ∧ (e = ZeroDivisionError ∨ e = IndexError
       ∨ (caught e = false
          ∧ ∃ r, r ∈ _backend_result_list f ∧ get_counts r name = inl e)).
Proof.
  unfold _calc_data.
  destruct (for_each (calc_series f) (_series f) ∅) as [e1|ydata] eqn:Hloop;
    simpl; [|discriminate].
  intros [= <-]. apply for_each_inl in Hloop as (s & ydata & Hs & Hseries).
  unfold calc_series in Hseries.
  destruct (map_py (calc_qubit f s) (seq 0 (length (measured_qubits f))))
    as [e2|entries] eqn:Hrow; simpl in Hseries; [|discriminate].
  injection Hseries as <-.
  apply map_py_inl in Hrow as (qind & [_ Hq]%elem_of_seq & Hqubit).
  unfold calc_qubit in Hqubit.
  destruct (map_py (calc_bloch_vec f s qind) (_circuit_names f))
    as [e3|vecs] eqn:Hvecs; simpl in Hqubit; [|discriminate].
  injection Hqubit as <-.
  apply map_py_inl in Hvecs as (c & Hc & Hvec).
  unfold calc_bloch_vec in Hvec.
  apply map_py_inl in Hvec as (axis & Haxis & Hexp).
  exists (expname c axis s), qind. split; [|split].
  - exists s, c, axis. simpl in Hq. auto.
  - exact Hexp.
  - eapply experiment_expv_inl. exact Hexp.
Qed.

Lemma calc_data_failure_witness :
  ∃ name qind,
    is_experiment_of (ex_fitter_with [ex_result_zero]) name qind
    ∧ experiment_expv [ex_result_zero] name qind = inl ZeroDivisionError
    ∧ (ZeroDivisionError = ZeroDivisionError ∨ ZeroDivisionError = IndexError
       ∨ (caught ZeroDivisionError = false
          ∧ ∃ r, r ∈ [ex_result_zero]
                 ∧ get_counts r name = inl ZeroDivisionError)).
Proof.
  apply (calc_data_failure (ex_fitter_with [ex_result_zero]) ZeroDivisionError).
  vm_compute. reflexivity.
Defined.

(** The pass starts from an empty table: what the table held before does
    not matter, and running the pass again on its own result gives that
    result again. *)
Theorem calc_data_replaces_table (f f' : Fitter)
    (ydata : gmap string (list YEntry)) :
  _calc_data (set_ydata f ydata) = _calc_data f
  ∧ (_calc_data f = inr f' → _calc_data f' = inr f').
Proof.
  split; [reflexivity|].
  intros Hrun. pose proof Hrun as Hrun'. unfold _calc_data in Hrun'.
  apply bind_inr in Hrun' as (ydata' & _ & [= <-]). exact Hrun.
Qed.

Lemma calc_data_replaces_table_witness :
  ∃ f', _calc_data ex_fitter = inr f' ∧ _calc_data f' = inr f'.
Proof.
  destruct (_calc_data ex_fitter) as [e|f'] eqn:Hrun;
    [vm_compute in Hrun; discriminate|].
  exists f'. split; [reflexivity|].
  by apply (calc_data_replaces_table ex_fitter f' ∅).
Defined.

(** ** Splitting a flattened vector back into its three sequences *)

Lemma np_split_basis_major (vs : list Vec3) :
  np_split (basis_major vs)
  = inr ((λ v : Vec3, v.1.1) <$> vs, (λ v : Vec3, v.1.2) <$> vs,
         (λ v : Vec3, v.2) <$> vs).
Proof.
  unfold np_split. rewrite length_basis_major.
  rewrite decide_True by (rewrite Nat.mul_comm; apply Nat.Div0.mod_mul).
  by rewrite np_split3_basis_major.
Qed.

Lemma bloch_fit_fun_layout (expm : Mat3 → Mat3) (x : list Q)
    (omega_x omega_y delta : Q) :
  _bloch_equation_fit_fun expm x omega_x omega_y delta
  = basis_major (bloch_vec expm omega_x omega_y delta <$> x).
Proof.
  unfold _bloch_equation_fit_fun. rewrite np_transpose3_columns_fmap.
  unfold np_ravel3. simpl. rewrite app_nil_r. apply np_ravel_basis_major.
Qed.

(** The flattening of the data reduction and [np.split(..., 3)] of the
    plotting methods are inverse to each other: splitting the flattened
    T x 3 array of Bloch vectors never raises and gives back the x, the y
    and the z sequence, each with one value per circuit. *)
Theorem flatten_split_round_trip (vs : list Vec3) :
  np_split (np_ravel (np_transpose 3 (vec_list <$> vs)))
  = inr ((λ v : Vec3, v.1.1) <$> vs, (λ v : Vec3, v.1.2) <$> vs,
         (λ v : Vec3, v.2) <$> vs)
  ∧ length (np_ravel (np_transpose 3 (vec_list <$> vs))) = (3 * length vs)%nat.
Proof.
  rewrite np_ravel_basis_major. split.
  - apply np_split_basis_major.
  - apply length_basis_major.
Qed.

(** The model function returns three values per time point, and
    [np.split(..., 3)] of its output never raises: it gives the predicted x,
    y and z components, each in the order of the time points. *)
Theorem bloch_fit_fun_split (expm : Mat3 → Mat3) (x : list Q)
    (omega_x omega_y delta : Q) :
  length (_bloch_equation_fit_fun expm x omega_x omega_y delta)
  = (3 * length x)%nat
  ∧ np_split (_bloch_equation_fit_fun expm x omega_x omega_y delta)
    = inr ((λ t, (bloch_vec expm omega_x omega_y delta t).1.1) <$> x,
           (λ t, (bloch_vec expm omega_x omega_y delta t).1.2) <$> x,
           (λ t, (bloch_vec expm omega_x omega_y delta t).2) <$> x).
Proof.
  rewrite bloch_fit_fun_layout. split.
  - by rewrite length_basis_major, length_fmap.
  - rewrite np_split_basis_major. by rewrite <- !list_fmap_compose.
Qed.

(** The value the model function predicts for one time point does not
    depend on the other time points: evaluating a sequence of time points
    gives, per basis, the values of evaluating each time point alone. *)
Theorem bloch_fit_fun_pointwise (expm : Mat3 → Mat3) (x : list Q)
    (omega_x omega_y delta : Q) (k : nat) (t : Q) :
  x !! k = Some t →
  ∃ vx vy vz,
    _bloch_equation_fit_fun expm [t] omega_x omega_y delta = [vx; vy; vz]
    ∧ _bloch_equation_fit_fun expm x omega_x omega_y delta !! k = Some vx
    ∧ _bloch_equation_fit_fun expm x omega_x omega_y delta !! (length x + k)%nat
      = Some vy
    ∧ _bloch_equation_fit_fun expm x omega_x omega_y delta
        !! (length x + length x + k)%nat = Some vz.
Proof.
  intros Hk. pose proof (lookup_lt_Some _ _ _ Hk) as Hlt.
  exists (bloch_vec expm omega_x omega_y delta t).1.1,
         (bloch_vec expm omega_x omega_y delta t).1.2,
         (bloch_vec expm omega_x omega_y delta t).2.
  rewrite !bloch_fit_fun_layout. unfold basis_major.
  split; [reflexivity|]. split; [|split].
  - rewrite lookup_app_l by (rewrite !length_fmap; exact Hlt).
    by rewrite !list_lookup_fmap, Hk.
  - rewrite lookup_app_r by (rewrite !length_fmap; lia).
    rewrite !length_fmap.
    replace (length x + k - length x)%nat with k by lia.
    rewrite lookup_app_l by (rewrite !length_fmap; exact Hlt).
    by rewrite !list_lookup_fmap, Hk.
  - rewrite lookup_app_r by (rewrite !length_fmap; lia).
    rewrite !length_fmap.
    rewrite lookup_app_r by (rewrite !length_fmap; lia).
    rewrite !length_fmap.
    replace (length x + length x + k - length x - length x)%nat with k by lia.
    by rewrite !list_lookup_fmap, Hk.
Qed.

Lemma bloch_fit_fun_pointwise_witness :
  ∃ vx vy vz,
    _bloch_equation_fit_fun (λ m, m) [2%Q] 1 2 3 = [vx; vy; vz]
    ∧ _bloch_equation_fit_fun (λ m, m) [1%Q; 2%Q] 1 2 3 !! 1%nat = Some vx
    ∧ _bloch_equation_fit_fun (λ m, m) [1%Q; 2%Q] 1 2 3
        !! (length [1%Q; 2%Q] + 1)%nat = Some vy
    ∧ _bloch_equation_fit_fun (λ m, m) [1%Q; 2%Q] 1 2 3
        !! (length [1%Q; 2%Q] + length [1%Q; 2%Q] + 1)%nat = Some vz.
Proof.
  apply (bloch_fit_fun_pointwise (λ m, m) [1%Q; 2%Q] 1 2 3 1 2).
  reflexivity.
Defined.

(** ** The derived Hamiltonian: what an access writes and what it keeps *)

Lemma list_index_inr (x : Z) (l : list Z) (i : nat) :
  list_index x l = inr i →
  l !! i = Some x ∧ ∀ j, (j < i)%nat → l !! j ≠ Some x.
Proof.
  revert i. induction l as [|y l IH]; intros i; simpl; [discriminate|].
  case_decide as Hy.
  - intros [= <-]. split; [by rewrite Hy | lia].
  - intros (i' & Hi' & [= <-])%bind_inr. destruct (IH _ Hi') as [Hlook Hfirst].
    split; [exact Hlook|]. intros [|j] Hj; simpl.
    + congruence.
    + apply Hfirst. lia.
Qed.

Lemma list_index_elem (x : Z) (l : list Z) :
  x ∈ l → ∃ i, list_index x l = inr i.
Proof.
  induction l as [|y l IH]; intros Hin; simpl.
  - by apply elem_of_nil in Hin.
  - case_decide as Hy; [by eexists|].
    apply elem_of_cons in Hin as [-> | Hin]; [done|].
    destruct (IH Hin) as [i ->]. by eexists.
Qed.

(** One iteration of the loop of [hamiltonian] replaces the entry of its
    qubit by that entry with the six terms assigned, in the order of the
    source. *)
Lemma hamiltonian_step_shape (f : Fitter) (h h' : gmap Z (gmap string Q))
    (qid : Z) :
  hamiltonian_step f h qid = inr h' →
  ∃ p0 p1 terms v1 v2 v3 v4 v5 v6,
    fit_params f "0" qid = inr p0 ∧ fit_params f "1" qid = inr p1
    ∧ h !! qid = Some terms
    ∧ half_sum p0 p1 0 = inr v1 ∧ half_sum p0 p1 1 = inr v2
    ∧ half_sum p0 p1 2 = inr v3 ∧ half_diff p0 p1 0 = inr v4
    ∧ half_diff p0 p1 1 = inr v5 ∧ half_diff p0 p1 2 = inr v6
    ∧ h' = <[qid := <["ZZ" := v6]> (<["YZ" := v5]> (<["XZ" := v4]>
                      (<["ZI" := v3]> (<["YI" := v2]> (<["XI" := v1]> terms)))))]> h.
Proof.
  unfold hamiltonian_step. intros Hstep.
  apply bind_inr in Hstep as (p0 & Hp0 & Hstep).
  apply bind_inr in Hstep as (p1 & Hp1 & Hstep).
  apply bind_inr in Hstep as (h1 & H1 & Hstep).
  apply bind_inr in Hstep as (h2 & H2 & Hstep).
  apply bind_inr in Hstep as (h3 & H3 & Hstep).
  apply bind_inr in Hstep as (h4 & H4 & Hstep).
  apply bind_inr in Hstep as (h5 & H5 & H6).
  apply set_term_inr in H1 as (v1 & t1 & Hv1 & Ht1 & ->).
  apply set_term_inr in H2 as (v2 & t2 & Hv2 & Ht2 & ->).
  rewrite lookup_insert_eq in Ht2. injection Ht2 as <-.
  apply set_term_inr in H3 as (v3 & t3 & Hv3 & Ht3 & ->).
  rewrite lookup_insert_eq in Ht3. injection Ht3 as <-.
  apply set_term_inr in H4 as (v4 & t4 & Hv4 & Ht4 & ->).
  rewrite lookup_insert_eq in Ht4. injection Ht4 as <-.
  apply set_term_inr in H5 as (v5 & t5 & Hv5 & Ht5 & ->).
  rewrite lookup_insert_eq in Ht5. injection Ht5 as <-.
  apply set_term_inr in H6 as (v6 & t6 & Hv6 & Ht6 & ->).
  rewrite lookup_insert_eq in Ht6. injection Ht6 as <-.
  exists p0, p1, t1, v1, v2, v3, v4, v5, v6.
  repeat (split; [assumption|]).
  by rewrite !insert_insert_eq.
Qed.

Lemma hamiltonian_step_holds (f : Fitter) (h h' : gmap Z (gmap string Q)) (qid : Z) :
  hamiltonian_step f h qid = inr h' → holds_values f qid h'.
Proof.
  intros (p0 & p1 & terms & v1 & v2 & v3 & v4 & v5 & v6 & Hp0 & Hp1 & Hterms
          & H1 & H2 & H3 & H4 & H5 & H6 & ->)%hamiltonian_step_shape.
  exists p0, p1. eexists. split; [exact Hp0|]. split; [exact Hp1|].
  split; [apply lookup_insert_eq|].
  unfold term_is. rewrite H1, H2, H3, H4, H5, H6.
  repeat split; eexists; (split; [reflexivity|]); by simplify_map_eq.
Qed.

Lemma hamiltonian_step_holds_keeps (f : Fitter) (h h' : gmap Z (gmap string Q))
    (q qid : Z) :
  hamiltonian_step f h q = inr h' → holds_values f qid h → holds_values f qid h'.
Proof.
  intros Hstep Hh. destruct (decide (q = qid)) as [-> | Hne].
  - by eapply hamiltonian_step_holds.
  - destruct Hh as (p0 & p1 & terms & Hp0 & Hp1 & Hterms & Hvals).
    exists p0, p1, terms. split; [exact Hp0|]. split; [exact Hp1|].
    split; [|exact Hvals].
    by rewrite (hamiltonian_step_other _ _ _ _ _ Hstep) by congruence.
Qed.

Lemma hamiltonian_loop_holds (f : Fitter) (qubits : list Z)
    (h h' : gmap Z (gmap string Q)) (qid : Z) :
  for_each (hamiltonian_step f) qubits h = inr h' →
  qid ∈ qubits ∨ holds_values f qid h → holds_values f qid h'.
Proof.
  revert h. induction qubits as [|q qubits IH]; intros h; simpl.
  - intros [= <-] [Hin | Hh]; [by apply elem_of_nil in Hin | exact Hh].
  - intros (h1 & Hstep & Hrest)%bind_inr Hcase.
    apply (IH _ Hrest).
    destruct Hcase as [[-> | Hin]%elem_of_cons | Hh].
    + right. by eapply hamiltonian_step_holds.
    + by left.
    + right. by eapply hamiltonian_step_holds_keeps.
Qed.

Lemma set_term_id (h : gmap Z (gmap string Q)) (qid : Z) (label : string)
    (value : Py Q) (terms : gmap string Q) :
  h !! qid = Some terms → term_is terms label value →
  set_term h qid label value = inr h.
Proof.
  intros Hterms (v & -> & Hv). unfold set_term. simpl. rewrite Hterms.
  unfold ret. f_equal. rewrite (insert_id terms) by exact Hv.
  by apply insert_id.
Qed.

(** On an entry that already holds the six values, an iteration changes
    nothing. *)
Lemma hamiltonian_step_fixed (f : Fitter) (h : gmap Z (gmap string Q)) (qid : Z) :
  holds_values f qid h → hamiltonian_step f h qid = inr h.
Proof.
  intros (p0 & p1 & terms & Hp0 & Hp1 & Hterms & H1 & H2 & H3 & H4 & H5 & H6).
  unfold hamiltonian_step. rewrite Hp0, Hp1. cbn [bind].
  rewrite (set_term_id _ _ _ _ _ Hterms H1). cbn [bind].
  rewrite (set_term_id _ _ _ _ _ Hterms H2). cbn [bind].
  rewrite (set_term_id _ _ _ _ _ Hterms H3). cbn [bind].
  rewrite (set_term_id _ _ _ _ _ Hterms H4). cbn [bind].
  rewrite (set_term_id _ _ _ _ _ Hterms H5). cbn [bind].
  exact (set_term_id _ _ _ _ _ Hterms H6).
Qed.

Lemma hamiltonian_loop_fixed (f : Fitter) (qubits : list Z)
    (h : gmap Z (gmap string Q)) :
  (∀ qid, qid ∈ qubits → holds_values f qid h) →
  for_each (hamiltonian_step f) qubits h = inr h.
Proof.
  induction qubits as [|q qubits IH]; intros Hall; simpl; [reflexivity|].
  rewrite hamiltonian_step_fixed by (apply Hall; by left). cbn [bind].
  apply IH. intros qid Hin. apply Hall. by right.
Qed.

(** Accessing the Hamiltonian a second time, with the fitted parameters
    unchanged, returns the same mapping and leaves the fitter as the first
    access left it. *)
Theorem hamiltonian_idempotent (f f' : Fitter) (h : gmap Z (gmap string Q)) :
  hamiltonian f = inr (h, f') → hamiltonian f' = inr (h, f').
Proof.
  unfold hamiltonian at 1. intros (h' & Hloop & [= <- <-])%bind_inr.
  unfold hamiltonian.
  change (for_each (hamiltonian_step (set_hamiltonian f h'))
            (measured_qubits (set_hamiltonian f h'))
            (_hamiltonian (set_hamiltonian f h')))
    with (for_each (hamiltonian_step f) (measured_qubits f) h').
  rewrite hamiltonian_loop_fixed; [reflexivity|].
  intros qid Hin. eapply hamiltonian_loop_holds; [exact Hloop | by left].
Qed.

Lemma hamiltonian_idempotent_witness :
  ∃ h f', hamiltonian ex_fitter_twice = inr (h, f')
          ∧ hamiltonian f' = inr (h, f').
Proof.
  destruct (hamiltonian ex_fitter_twice) as [e|[h f']] eqn:Hrun;
    [vm_compute in Hrun; discriminate|].
  exists h, f'. split; [reflexivity|].
  exact (hamiltonian_idempotent ex_fitter_twice f' h Hrun).
Defined.

Lemma six_inserts_other (terms : gmap string Q) (v1 v2 v3 v4 v5 v6 : Q)
    (label : string) :
  label ∉ term_labels →
  (<["ZZ" := v6]> (<["YZ" := v5]> (<["XZ" := v4]>
     (<["ZI" := v3]> (<["YI" := v2]> (<["XI" := v1]> terms)))))) !! label
  = terms !! label.
Proof.
  unfold term_labels. rewrite !not_elem_of_cons. intros (?&?&?&?&?&?&_).
  by rewrite !lookup_insert_ne.
Qed.

(** What the loop of [hamiltonian] keeps of the mapping it started from:
    entries of qubits that are not measured, the presence or absence of
    every entry, and, within an entry, every label other than the six. *)
Lemma hamiltonian_loop_frame (f : Fitter) (qubits : list Z)
    (h0 h : gmap Z (gmap string Q)) :
  for_each (hamiltonian_step f) qubits h0 = inr h →
  (∀ q, q ∉ qubits → h !! q = h0 !! q)
  ∧ (∀ q, h0 !! q = None → h !! q = None)
  ∧ (∀ q terms0, h0 !! q = Some terms0 →
       ∃ terms, h !! q = Some terms
                ∧ ∀ label, label ∉ term_labels → terms !! label = terms0 !! label).
Proof.
  intros Hloop.
  apply (for_each_invariant
           (λ h, (∀ q, q ∉ qubits → h !! q = h0 !! q)
                 ∧ (∀ q, h0 !! q = None → h !! q = None)
                 ∧ (∀ q terms0, h0 !! q = Some terms0 →
                      ∃ terms, h !! q = Some terms
                               ∧ ∀ label, label ∉ term_labels →
                                          terms !! label = terms0 !! label))
           (hamiltonian_step f) qubits h0 h); [|by eauto|exact Hloop].
  intros s x s' Hx (Hout & Hnone & Hsome) Hstep.
  assert (∀ q, q ≠ x → s' !! q = s !! q) as Hother
    by (intros q Hq; by eapply hamiltonian_step_other).
  apply hamiltonian_step_shape in Hstep
    as (p0 & p1 & terms & v1 & v2 & v3 & v4 & v5 & v6 & _ & _ & Hterms
        & _ & _ & _ & _ & _ & _ & ->).
  split; [|split].
  - intros q Hq. rewrite Hother by (intros ->; done). by apply Hout.
  - intros q Hq. destruct (decide (q = x)) as [-> | Hne].
    + rewrite (Hnone _ Hq) in Hterms. discriminate.
    + rewrite Hother by exact Hne. by apply Hnone.
  - intros q terms0 Hq. destruct (Hsome _ _ Hq) as (terms1 & Hterms1 & Hkeep).
    destruct (decide (q = x)) as [-> | Hne].
    + rewrite Hterms in Hterms1. injection Hterms1 as <-.
      eexists. split; [apply lookup_insert_eq|].
      intros label Hlabel. rewrite six_inserts_other by exact Hlabel.
      by apply Hkeep.
    + exists terms1. split; [|exact Hkeep]. by rewrite Hother.
Qed.

(** An access assigns six labels of the entries of the measured qubits and
    nothing else: the entries of other qubits stay as they are, no entry is
    created or removed, and in the entry of a measured qubit every other
    label keeps its value. *)
Theorem hamiltonian_keeps_the_rest (f f' : Fitter) (h : gmap Z (gmap string Q)) :
  hamiltonian f = inr (h, f') →
  (∀ q, q ∉ measured_qubits f → h !! q = _hamiltonian f !! q)
  ∧ (∀ q, is_Some (h !! q) ↔ is_Some (_hamiltonian f !! q))
  ∧ (∀ q terms0 terms label,
       _hamiltonian f !! q = Some terms0 → h !! q = Some terms →
       label ∉ term_labels → terms !! label = terms0 !! label).
Proof.
  unfold hamiltonian. intros (h' & Hloop & [= <- _])%bind_inr.
  destruct (hamiltonian_loop_frame _ _ _ _ Hloop) as (Hout & Hnone & Hsome).
  split; [exact Hout|]. split.
  - intros q. destruct (_hamiltonian f !! q) as [terms0|] eqn:Hq.
    + destruct (Hsome _ _ Hq) as (terms & -> & _). by split; eexists.
    + rewrite (Hnone _ Hq). done.
  - intros q terms0 terms label Hq Hterms Hlabel.
    destruct (Hsome _ _ Hq) as (terms1 & Hterms1 & Hkeep).
    rewrite Hterms in Hterms1. injection Hterms1 as <-. by apply Hkeep.
Qed.

Lemma hamiltonian_keeps_the_rest_witness :
  ∃ h f', hamiltonian ex_fitter_twice = inr (h, f')
          ∧ h !! 4 = _hamiltonian ex_fitter_twice !! 4
          ∧ (∀ terms, h !! 7 = Some terms → terms !! "IX" = Some 6%Q).
Proof.
  destruct (hamiltonian ex_fitter_twice) as [e|[h f']] eqn:Hrun;
    [vm_compute in Hrun; discriminate|].
  destruct (hamiltonian_keeps_the_rest ex_fitter_twice f' h Hrun)
    as (Hout & _ & Hkeep).
  exists h, f'. split; [reflexivity|]. split.
  - apply Hout. intros Hin%list_elem_of_In. simpl in Hin.
    destruct Hin as [Heq | [Heq | []]]; discriminate.
  - intros terms Hterms.
    rewrite (Hkeep 7 {[ "IX" := 6%Q ]} terms "IX"); [reflexivity.. | | ];
      [exact Hterms|].
    intros Hin%list_elem_of_In. simpl in Hin.
    repeat (destruct Hin as [Heq | Hin]; [discriminate|]). exact Hin.
Defined.

Lemma list_item_inr_length {A} (l : list A) (i : nat) (x : A) :
  list_item l i = inr x → (i < length l)%nat.
Proof.
  unfold list_item. destruct (l !! i) eqn:Hi; [|discriminate].
  intros _. by eapply lookup_lt_Some.
Qed.

Lemma half_diff_inr_length (p0 p1 : list Q) (i : nat) (v : Q) :
  half_diff p0 p1 i = inr v → (i < length p0)%nat ∧ (i < length p1)%nat.
Proof.
  unfold half_diff. intros (a & Ha & (b & Hb & _)%bind_inr)%bind_inr.
  split; by eapply list_item_inr_length.
Qed.

(** The access succeeds exactly when every measured qubit has an entry in
    [_hamiltonian] and at least three fitted parameters in each of the two
    series. *)
Theorem hamiltonian_succeeds_iff (f : Fitter) :
  (∃ h f', hamiltonian f = inr (h, f')) ↔ hamiltonian_ready f.
Proof.
  split.
  - intros (h & f' & Hrun) qid Hin. unfold hamiltonian in Hrun.
    apply bind_inr in Hrun as (h' & Hloop & [= <- _]).
    destruct (hamiltonian_loop_holds f _ _ _ qid Hloop)
      as (p0 & p1 & terms & Hp0 & Hp1 & Hterms & _ & _ & _ & _ & _
          & (v & Hv & _)); [by left|].
    destruct (hamiltonian_loop_frame _ _ _ _ Hloop) as (_ & Hnone & _).
    split.
    + destruct (_hamiltonian f !! qid) eqn:Hq; [by eexists|].
      rewrite (Hnone _ Hq) in Hterms. discriminate.
    + exists p0, p1. apply half_diff_inr_length in Hv as [Hlen0 Hlen1].
      repeat split; (assumption || lia).
  - intros Hready. destruct (hamiltonian_succeeds f Hready) as [h Hh].
    by exists h, (set_hamiltonian f h).
Qed.

(** ** The derived Hamiltonian: how an access fails *)

Lemma list_item_inl {A} (l : list A) (i : nat) (e : exn) :
  list_item l i = inl e → e = IndexError.
Proof. unfold list_item. destruct (l !! i); [discriminate | by intros [= <-]]. Qed.

Lemma half_sum_inl (p0 p1 : list Q) (i : nat) (e : exn) :
  half_sum p0 p1 i = inl e → e = IndexError.
Proof.
  unfold half_sum.
  destruct (list_item p0 i) as [e0|a] eqn:Ha; simpl.
  - intros [= <-]. by eapply list_item_inl.
  - destruct (list_item p1 i) as [e1|b] eqn:Hb; simpl; [|discriminate].
    intros [= <-]. by eapply list_item_inl.
Qed.

Lemma half_diff_inl (p0 p1 : list Q) (i : nat) (e : exn) :
  half_diff p0 p1 i = inl e → e = IndexError.
Proof.
  unfold half_diff.
  destruct (list_item p0 i) as [e0|a] eqn:Ha; simpl.
  - intros [= <-]. by eapply list_item_inl.
  - destruct (list_item p1 i) as [e1|b] eqn:Hb; simpl; [|discriminate].
    intros [= <-]. by eapply list_item_inl.
Qed.

Lemma set_term_inl (h : gmap Z (gmap string Q)) (qid : Z) (label : string)
    (value : Py Q) (e : exn) :
  set_term h qid label value = inl e →
  value = inl e ∨ (h !! qid = None ∧ e = KeyError (pretty qid)).
Proof.
  unfold set_term. destruct value as [e0|v]; simpl.
  - intros [= <-]. by left.
  - destruct (h !! qid); [discriminate|]. intros [= <-]. by right.
Qed.

Lemma fit_params_inl (f : Fitter) (series : string) (qid : Z) (e : exn) :
  qid ∈ measured_qubits f →
  fit_params f series qid = inl e →
  e = IndexError ∨ (_params f !! series = None ∧ e = KeyError series).
Proof.
  intros Hin. unfold fit_params, dict_item.
  destruct (_params f !! series) as [params|]; simpl.
  - destruct (list_index_elem _ _ Hin) as [i ->]. simpl.
    intros He%list_item_inl. by left.
  - intros [= <-]. by right.
Qed.

Ltac step_failure H :=
  let e := fresh "e" in
  let Hraise := fresh "Hraise" in
  match type of H with
  | bind ?c _ = inl _ =>
      destruct c as [e|?] eqn:Hraise; simpl in H;
      [injection H as <-|]
  end.

Lemma hamiltonian_step_inl (f : Fitter) (h : gmap Z (gmap string Q)) (qid : Z)
    (e : exn) :
  qid ∈ measured_qubits f →
  hamiltonian_step f h qid = inl e →
  e = IndexError ∨ ∃ key, e = KeyError key.
Proof.
  intros Hin Hstep. unfold hamiltonian_step in Hstep.
  step_failure Hstep.
  { apply fit_params_inl in Hraise as [-> | [_ ->]]; eauto. }
  step_failure Hstep.
  { apply fit_params_inl in Hraise0 as [-> | [_ ->]]; eauto. }
  step_failure Hstep.
  { apply set_term_inl in Hraise1 as [->%half_sum_inl | [_ ->]]; eauto. }
  step_failure Hstep.
  { apply set_term_inl in Hraise2 as [->%half_sum_inl | [_ ->]]; eauto. }
  step_failure Hstep.
  { apply set_term_inl in Hraise3 as [->%half_sum_inl | [_ ->]]; eauto. }
  step_failure Hstep.
  { apply set_term_inl in Hraise4 as [->%half_diff_inl | [_ ->]]; eauto. }
  step_failure Hstep.
  { apply set_term_inl in Hraise5 as [->%half_diff_inl | [_ ->]]; eauto. }
  apply set_term_inl in Hstep as [->%half_diff_inl | [_ ->]]; eauto.
Qed.

(** An access that fails raises [IndexError] (a parameter table with too
    few rows, or a parameter vector with fewer than three entries) or
    [KeyError] (a series without parameters, or a measured qubit without an
    entry in [_hamiltonian]); [list.index] never fails in it. *)
Theorem hamiltonian_failure (f : Fitter) (e : exn) :
  hamiltonian f = inl e → e = IndexError ∨ ∃ key, e = KeyError key.
Proof.
  unfold hamiltonian.
  destruct (for_each (hamiltonian_step f) (measured_qubits f) (_hamiltonian f))
    as [e0|h] eqn:Hloop; simpl; [|discriminate].
  intros [= <-]. apply for_each_inl in Hloop as (qid & h & Hin & Hstep).
  by eapply hamiltonian_step_inl.
Qed.

Lemma hamiltonian_failure_witness :
  KeyError "0" = IndexError ∨ ∃ key, KeyError "0" = KeyError key.
Proof. apply (hamiltonian_failure ex_fitter_unfitted). reflexivity. Defined.

(** ** Qubits listed more than once *)

(** The parameters used for a qubit are those at the first position at
    which its id occurs in [measured_qubits]: a later position of the same
    id is never read. *)
Theorem fit_params_first_occurrence (f : Fitter) (series : string) (qid : Z)
    (p : list Q) :
  fit_params f series qid = inr p →
  ∃ params i,
    _params f !! series = Some params
    ∧ measured_qubits f !! i = Some qid
    ∧ (∀ j, (j < i)%nat → measured_qubits f !! j ≠ Some qid)
    ∧ params !! i = Some p.
Proof.
  unfold fit_params, dict_item.
  destruct (_params f !! series) as [params|]; [|discriminate]. simpl.
  intros (i & Hi & Hp)%bind_inr.
  apply list_index_inr in Hi as [Hlook Hfirst].
  exists params, i. repeat split; try assumption.
  unfold list_item in Hp. destruct (params !! i); [|discriminate].
  by injection Hp as ->.
Qed.

Lemma fit_params_first_occurrence_witness :
  ∃ params i,
    _params ex_fitter_twice !! "0" = Some params
    ∧ measured_qubits ex_fitter_twice !! i = Some 7
    ∧ (∀ j, (j < i)%nat → measured_qubits ex_fitter_twice !! j ≠ Some 7)
    ∧ params !! i = Some [3; 1; 5]%Q.
Proof.
  apply (fit_params_first_occurrence ex_fitter_twice "0" 7 [3; 1; 5]%Q).
  reflexivity.
Defined.

(** ** Recovering the fitted parameters from the coefficients *)



Lemma hamiltonian_succeeds_iff_witness : hamiltonian_ready ex_fitter.
Proof.
  apply (proj1 (hamiltonian_succeeds_iff ex_fitter)).
  destruct (hamiltonian ex_fitter) as [e|[h f']] eqn:Hrun;
    [vm_compute in Hrun; discriminate | by exists h, f'].
Defined.
